(** * Rit: a minimal local version-control core

    A shallow embedding of [Rit.mjs]: the object store, the staging index,
    the commit chain and the commit diff.  The methods of the class [Rit]
    are functions of a state monad over the files on disk and a trace of
    effects; a thrown exception is an outcome of its own, and the loop of
    [log] takes fuel.  The platform functions the class calls
    ([crypto.createHash("sha1")], [JSON.stringify], [JSON.parse],
    [diffLines]) are given executable definitions so that whole sessions
    can be run inside the logic.

    Conventions: a string is the sequence of its UTF-8 bytes; the disk is
    the map from the paths of the regular files to their texts, so
    [fs.mkdir] changes nothing and fails when a regular file is in its
    way; reads fail on a missing file and writes succeed; the clock is an
    argument of [commit]; the command-line dispatch, and the unawaited
    [init] the constructor starts, are outside the model. *)

From Stdlib Require Import ZArith NArith Lia Ascii String List.
From stdpp Require Import base strings list gmap pretty.

#[global] Arguments String.append !_ _ : simpl nomatch.

(** ** SHA-1 (FIPS 180-4), the digest behind [hashObject] *)

Module Sha1.
Local Open Scope Z_scope.

Definition w32 (x : Z) : Z := x mod 2 ^ 32.

Definition rotl (n x : Z) : Z :=
  w32 (Z.lor (Z.shiftl x n) (Z.shiftr x (32 - n))).

(** A string is the sequence of its UTF-8 bytes. *)
Definition utf8_bytes (s : string) : list Z :=
  map (fun a => Z.of_N (N_of_ascii a)) (list_ascii_of_string s).

Fixpoint be_bytes (n : nat) (x : Z) : list Z :=
  match n with
  | O => []
  | S k => Z.shiftr x (8 * Z.of_nat k) mod 256 :: be_bytes k x
  end.

Definition pad (m : list Z) : list Z :=
  let l := Z.of_nat (length m) in
  m ++ [128] ++ repeat 0 (Z.to_nat ((55 - l) mod 64)) ++ be_bytes 8 (8 * l).

Fixpoint words (l : list Z) : list Z :=
  match l with
  | a :: b :: c :: d :: r => ((a * 256 + b) * 256 + c) * 256 + d :: words r
  | _ => []
  end.

Fixpoint schedule (n : nat) (rev_w : list Z) : list Z :=
  match n with
  | O => rev rev_w
  | S k =>
      let x := Z.lxor (Z.lxor (nth 2 rev_w 0) (nth 7 rev_w 0))
                      (Z.lxor (nth 13 rev_w 0) (nth 15 rev_w 0)) in
      schedule k (rotl 1 x :: rev_w)
  end.

Definition hstate : Type := Z * Z * Z * Z * Z.

Definition f_k (t : nat) (b c d : Z) : Z * Z :=
  if (t <? 20)%nat then
    (Z.lor (Z.land b c) (Z.land (Z.lxor b (2 ^ 32 - 1)) d), 0x5A827999)
  else if (t <? 40)%nat then (Z.lxor (Z.lxor b c) d, 0x6ED9EBA1)
  else if (t <? 60)%nat then
    (Z.lor (Z.lor (Z.land b c) (Z.land b d)) (Z.land c d), 0x8F1BBCDC)
  else (Z.lxor (Z.lxor b c) d, 0xCA62C1D6).

Definition round (st : hstate) (tw : nat * Z) : hstate :=
  let '(a, b, c, d, e) := st in
  let '(t, w) := tw in
  let '(f, k) := f_k t b c d in
  (w32 (rotl 5 a + f + e + k + w), a, rotl 30 b, c, d).

Definition compress (h : hstate) (block : list Z) : hstate :=
  let w := schedule 64 (rev block) in
  let '(a, b, c, d, e) := fold_left round (combine (seq 0 80) w) h in
  let '(h0, h1, h2, h3, h4) := h in
  (w32 (h0 + a), w32 (h1 + b), w32 (h2 + c), w32 (h3 + d), w32 (h4 + e)).

Fixpoint blocks (n : nat) (ws : list Z) (h : hstate) : hstate :=
  match n, ws with
  | S k, _ :: _ => blocks k (skipn 16 ws) (compress h (firstn 16 ws))
  | _, _ => h
  end.

Definition init_state : hstate :=
  (0x67452301, 0xEFCDAB89, 0x98BADCFE, 0x10325476, 0xC3D2E1F0).

Definition pack (h : hstate) : Z :=
  let '(h0, h1, h2, h3, h4) := h in
  (((h0 * 2 ^ 32 + h1) * 2 ^ 32 + h2) * 2 ^ 32 + h3) * 2 ^ 32 + h4.

(** The 160-bit digest as a number. *)
Definition digest (s : string) : Z :=
  let ws := words (pad (utf8_bytes s)) in
  pack (blocks (length ws) ws init_state).

Definition hex_digit (x : Z) : ascii :=
  ascii_of_N (Z.to_N (if x <? 10 then 48 + x else 87 + x)).

Fixpoint hex (n : nat) (x : Z) : string :=
  match n with
  | O => EmptyString
  | S k => String (hex_digit (Z.shiftr x (4 * Z.of_nat k) mod 16)) (hex k x)
  end.

(** [digest("hex")]: forty lower-case hexadecimal digits. *)
Definition sha1_hex (s : string) : string := hex 40 (digest s).

(** Every word of a state fits in 32 bits. *)
Definition in_range (h : hstate) : Prop :=
  let '(h0, h1, h2, h3, h4) := h in
  (0 <= h0 < 2 ^ 32) /\ (0 <= h1 < 2 ^ 32) /\ (0 <= h2 < 2 ^ 32) /\
  (0 <= h3 < 2 ^ 32) /\ (0 <= h4 < 2 ^ 32).

End Sha1.

(** ** JSON values, [JSON.stringify] and [JSON.parse] *)

Module JSON.
#[local] Set Warnings "-register-all".

(** A number keeps the lexeme it was read from; the program never builds
    one itself. *)
Inductive json : Type :=
| JNull
| JBool (b : bool)
| JNum (lexeme : string)
| JStr (s : string)
| JArr (items : list json)
| JObj (fields : list (string * json)).

Definition dquote : ascii := "034"%char.
Definition backslash : ascii := "092"%char.

Definition code (c : ascii) : N := N_of_ascii c.
Definition chr (n : N) : ascii := ascii_of_N n.

Definition hex_digit (n : N) : ascii :=
  chr (if n <? 10 then 48 + n else 87 + n)%N.

Definition escape_char (c : ascii) : string :=
  let n := code c in
  if (n =? 34)%N then String backslash (String dquote "")
  else if (n =? 92)%N then String backslash (String backslash "")
  else if (n =? 8)%N then String backslash "b"
  else if (n =? 9)%N then String backslash "t"
  else if (n =? 10)%N then String backslash "n"
  else if (n =? 12)%N then String backslash "f"
  else if (n =? 13)%N then String backslash "r"
  else if (n <? 32)%N then
    String backslash
      (String "u" (String "0" (String "0"
         (String (hex_digit (n / 16)) (String (hex_digit (n mod 16)) "")))))
  else String c "".

Fixpoint escape (s : string) : string :=
  match s with
  | EmptyString => EmptyString
  | String c r => escape_char c +:+ escape r
  end.

Definition quote (s : string) : string :=
  String dquote (escape s +:+ String dquote "").

Fixpoint stringify (v : json) : string :=
  match v with
  | JNull => "null"
  | JBool true => "true"
  | JBool false => "false"
  | JNum lexeme => lexeme
  | JStr s => quote s
  | JArr items =>
      "[" +:+
      (fix elems (l : list json) : string :=
         match l with
         | [] => ""
         | [x] => stringify x
         | x :: l' => stringify x +:+ "," +:+ elems l'
         end) items +:+ "]"
  | JObj fields =>
      "{" +:+
      (fix members (l : list (string * json)) : string :=
         match l with
         | [] => ""
         | [(k, x)] => quote k +:+ ":" +:+ stringify x
         | (k, x) :: l' => quote k +:+ ":" +:+ stringify x +:+ "," +:+ members l'
         end) fields +:+ "}"
  end.

Definition is_ws (c : ascii) : bool :=
  let n := code c in ((n =? 32) || (n =? 9) || (n =? 10) || (n =? 13))%N.

Fixpoint skip_ws (s : string) : string :=
  match s with
  | String c r => if is_ws c then skip_ws r else s
  | EmptyString => EmptyString
  end.

Definition is_digit (c : ascii) : bool := ((48 <=? code c) && (code c <=? 57))%N.

Definition hex_value (c : ascii) : option N :=
  let n := code c in
  if ((48 <=? n) && (n <=? 57))%N then Some (n - 48)%N
  else if ((97 <=? n) && (n <=? 102))%N then Some (n - 87)%N
  else if ((65 <=? n) && (n <=? 70))%N then Some (n - 55)%N
  else None.

Definition hex4 (a b c d : ascii) : option N :=
  x ← hex_value a; y ← hex_value b; z ← hex_value c; w ← hex_value d;
  Some (((x * 16 + y) * 16 + z) * 16 + w)%N.

Definition utf8_encode (cp : N) : string :=
  (if cp <? 0x80 then String (chr cp) ""
   else if cp <? 0x800 then
     String (chr (0xC0 + cp / 64)) (String (chr (0x80 + cp mod 64)) "")
   else if cp <? 0x10000 then
     String (chr (0xE0 + cp / 4096))
       (String (chr (0x80 + (cp / 64) mod 64)) (String (chr (0x80 + cp mod 64)) ""))
   else
     String (chr (0xF0 + cp / 262144))
       (String (chr (0x80 + (cp / 4096) mod 64))
          (String (chr (0x80 + (cp / 64) mod 64))
             (String (chr (0x80 + cp mod 64)) ""))))%N.

Definition is_high_surrogate (u : N) : bool := ((0xD800 <=? u) && (u <=? 0xDBFF))%N.
Definition is_low_surrogate (u : N) : bool := ((0xDC00 <=? u) && (u <=? 0xDFFF))%N.

(** An unpaired surrogate has no UTF-8 form: it is read as U+FFFD, which
    is what writing or hashing the string as UTF-8 makes of it. *)
Definition replacement : string := utf8_encode 0xFFFD.

Definition simple_escape (e : ascii) : option ascii :=
  if Ascii.eqb e dquote then Some dquote
  else if Ascii.eqb e backslash then Some backslash
  else if Ascii.eqb e "/" then Some "/"%char
  else if Ascii.eqb e "b" then Some (chr 8)
  else if Ascii.eqb e "f" then Some (chr 12)
  else if Ascii.eqb e "n" then Some (chr 10)
  else if Ascii.eqb e "r" then Some (chr 13)
  else if Ascii.eqb e "t" then Some (chr 9)
  else None.

Definition prepend (x : string) (o : option (string * string)) : option (string * string) :=
  match o with
  | Some (y, rest) => Some (x +:+ y, rest)
  | None => None
  end.

(** The characters of a string literal after its opening quote, and the
    text after its closing quote. *)
Fixpoint parse_chars (s : string) : option (string * string) :=
  match s with
  | EmptyString => None
  | String c r =>
      if Ascii.eqb c dquote then Some (EmptyString, r)
      else if Ascii.eqb c backslash then
        match r with
        | EmptyString => None
        | String e r1 =>
            match simple_escape e with
            | Some x => prepend (String x "") (parse_chars r1)
            | None =>
                if Ascii.eqb e "u" then
                  match r1 with
                  | String h1 (String h2 (String h3 (String h4 r2))) =>
                      match hex4 h1 h2 h3 h4 with
                      | None => None
                      | Some u =>
                          if is_high_surrogate u then
                            match r2 with
                            | String b (String v (String g1 (String g2 (String g3 (String g4 r3))))) =>
                                match (if Ascii.eqb b backslash && Ascii.eqb v "u"
                                       then hex4 g1 g2 g3 g4 else None) with
                                | Some lo =>
                                    if is_low_surrogate lo then
                                      prepend
                                        (utf8_encode
                                           (0x10000 + (u - 0xD800) * 1024 + (lo - 0xDC00))%N)
                                        (parse_chars r3)
                                    else prepend replacement (parse_chars r2)
                                | None => prepend replacement (parse_chars r2)
                                end
                            | _ => prepend replacement (parse_chars r2)
                            end
                          else if is_low_surrogate u then prepend replacement (parse_chars r2)
                          else prepend (utf8_encode u) (parse_chars r2)
                      end
                  | _ => None
                  end
                else None
            end
        end
      else if (code c <? 32)%N then None
      else prepend (String c "") (parse_chars r)
  end.

Fixpoint span_digits (s : string) : string * string :=
  match s with
  | String c r =>
      if is_digit c then let '(d, rest) := span_digits r in (String c d, rest)
      else (EmptyString, s)
  | EmptyString => (EmptyString, EmptyString)
  end.

Definition digits1 (s : string) : option (string * string) :=
  match span_digits s with
  | (EmptyString, _) => None
  | (d, rest) => Some (d, rest)
  end.

Definition parse_number (s : string) : option (string * string) :=
  let '(sign, s1) :=
    match s with
    | String c r => if Ascii.eqb c "-" then ("-", r) else ("", s)
    | EmptyString => ("", s)
    end in
  '(int, s2) ←
    match s1 with
    | String c r => if Ascii.eqb c "0" then Some ("0", r) else digits1 s1
    | EmptyString => None
    end;
  '(frac, s3) ←
    match s2 with
    | String c r =>
        if Ascii.eqb c "." then '(d, rest) ← digits1 r; Some (String c d, rest)
        else Some ("", s2)
    | EmptyString => Some ("", s2)
    end;
  '(exp, s4) ←
    match s3 with
    | String c r =>
        if Ascii.eqb c "e" || Ascii.eqb c "E" then
          match r with
          | String g r' =>
              if Ascii.eqb g "+" || Ascii.eqb g "-" then
                '(d, rest) ← digits1 r'; Some (String c (String g d), rest)
              else '(d, rest) ← digits1 r; Some (String c d, rest)
          | EmptyString => None
          end
        else Some ("", s3)
    | EmptyString => Some ("", s3)
    end;
  Some (sign +:+ int +:+ frac +:+ exp, s4).

Fixpoint expect (word : string) (v : json) (s : string) : option (json * string) :=
  match word, s with
  | EmptyString, _ => Some (v, s)
  | String a word', String b s' => if Ascii.eqb a b then expect word' v s' else None
  | String _ _, EmptyString => None
  end.

(** A repeated key keeps the position of its first occurrence and the
    value of its last one, as property assignment does.  (Keys that are
    array indices would be enumerated first; the records of this program
    have none.) *)
Fixpoint obj_set (k : string) (v : json) (fields : list (string * json))
  : list (string * json) :=
  match fields with
  | [] => [(k, v)]
  | (k', v') :: rest =>
      if String.eqb k' k then (k, v) :: rest else (k', v') :: obj_set k v rest
  end.

Definition obj_of_entries (entries : list (string * json)) : list (string * json) :=
  fold_left (fun acc kv => obj_set (fst kv) (snd kv) acc) entries [].

Fixpoint parse_value (fuel : nat) (s : string) : option (json * string) :=
  match fuel with
  | O => None
  | S f =>
      match skip_ws s with
      | EmptyString => None
      | String c r =>
          if Ascii.eqb c "n" then expect "ull" JNull r
          else if Ascii.eqb c "t" then expect "rue" (JBool true) r
          else if Ascii.eqb c "f" then expect "alse" (JBool false) r
          else if Ascii.eqb c dquote then
            '(x, r') ← parse_chars r; Some (JStr x, r')
          else if Ascii.eqb c "[" then
            match skip_ws r with
            | String c' r' =>
                if Ascii.eqb c' "]" then Some (JArr [], r')
                else '(l, r'') ← parse_elems f r; Some (JArr l, r'')
            | EmptyString => None
            end
          else if Ascii.eqb c "{" then
            match skip_ws r with
            | String c' r' =>
                if Ascii.eqb c' "}" then Some (JObj [], r')
                else '(l, r'') ← parse_members f r; Some (JObj (obj_of_entries l), r'')
            | EmptyString => None
            end
          else if Ascii.eqb c "-" || is_digit c then
            '(lexeme, r') ← parse_number (String c r); Some (JNum lexeme, r')
          else None
      end
  end
with parse_elems (fuel : nat) (s : string) : option (list json * string) :=
  match fuel with
  | O => None
  | S f =>
      '(v, r) ← parse_value f s;
      match skip_ws r with
      | String c r' =>
          if Ascii.eqb c "," then '(l, r'') ← parse_elems f r'; Some (v :: l, r'')
          else if Ascii.eqb c "]" then Some ([v], r')
          else None
      | EmptyString => None
      end
  end
with parse_members (fuel : nat) (s : string) : option (list (string * json) * string) :=
  match fuel with
  | O => None
  | S f =>
      match skip_ws s with
      | String q r =>
          if Ascii.eqb q dquote then
            '(k, r1) ← parse_chars r;
            match skip_ws r1 with
            | String c r2 =>
                if Ascii.eqb c ":" then
                  '(v, r3) ← parse_value f r2;
                  match skip_ws r3 with
                  | String c' r4 =>
                      if Ascii.eqb c' "," then
                        '(l, r5) ← parse_members f r4; Some ((k, v) :: l, r5)
                      else if Ascii.eqb c' "}" then Some ([(k, v)], r4)
                      else None
                  | EmptyString => None
                  end
                else None
            | EmptyString => None
            end
          else None
      | EmptyString => None
      end
  end.

(** [JSON.parse]: one value, then nothing but white space. [None] is the
    SyntaxError. *)
Definition parse (text : string) : option json :=
  '(v, r) ← parse_value (2 * String.length text + 2) text;
  match skip_ws r with
  | EmptyString => Some v
  | _ => None
  end.

Fixpoint elems (l : list json) : string :=
  match l with
  | [] => ""
  | [x] => stringify x
  | x :: l' => stringify x +:+ "," +:+ elems l'
  end.

Fixpoint members (l : list (string * json)) : string :=
  match l with
  | [] => ""
  | [(k, x)] => quote k +:+ ":" +:+ stringify x
  | (k, x) :: l' => quote k +:+ ":" +:+ stringify x +:+ "," +:+ members l'
  end.

(** Values without numbers and without repeated keys: the values the
    program builds and writes. *)
Fixpoint distinct (keys : list string) : bool :=
  match keys with
  | [] => true
  | k :: rest => negb (existsb (String.eqb k) rest) && distinct rest
  end.

Fixpoint plain (v : json) : bool :=
  match v with
  | JNum _ => false
  | JArr items => forallb plain items
  | JObj fields => forallb (fun kv => plain (snd kv)) fields && distinct (map fst fields)
  | _ => true
  end.

Fixpoint size (v : json) : nat :=
  match v with
  | JArr items => S (list_sum (map size items))
  | JObj fields => S (list_sum (map (fun kv => size (snd kv)) fields))
  | _ => 1
  end.

(** Enough fuel reads a written value back, whatever follows it. *)
Definition reads_back (x : json) : Prop :=
  plain x = true ->
  forall fuel rest, 2 * size x <= fuel ->
  parse_value fuel (stringify x +:+ rest) = Some (x, rest).

End JSON.

(** ** The JavaScript operations the class applies to parsed values *)

Module Js.
Import JSON.

(** A JavaScript value: [None] is [undefined]. *)
Definition jsval : Type := option json.
Definition undefined : jsval := None.

Inductive error : Type :=
| ENOENT (path : string)
| EEXIST (syscall path : string)
| ENOTDIR (syscall path : string)
| SyntaxError
| TypeError.

Inductive outcome (A : Type) : Type :=
| Ok (a : A)
| Throw (e : error)
| OutOfFuel.
Arguments Ok {A} a.
Arguments Throw {A} e.
Arguments OutOfFuel {A}.

Definition nl : string := String (chr 10) "".
Definition squote : string := String (chr 39) "".

(** What a template literal prints for a caught error. *)
Definition error_text (e : error) : string :=
  match e with
  | ENOENT p => "Error: ENOENT: no such file or directory, open " +:+ squote +:+ p +:+ squote
  | EEXIST call p =>
      "Error: EEXIST: file already exists, " +:+ call +:+ " " +:+ squote +:+ p +:+ squote
  | ENOTDIR call p =>
      "Error: ENOTDIR: not a directory, " +:+ call +:+ " " +:+ squote +:+ p +:+ squote
  | SyntaxError => "SyntaxError: Unexpected token in JSON"
  | TypeError => "TypeError"
  end.

Fixpoint mantissa (s : string) : string :=
  match s with
  | String c r => if Ascii.eqb c "e" || Ascii.eqb c "E" then "" else String c (mantissa r)
  | EmptyString => EmptyString
  end.

Fixpoint all_chars (p : ascii -> bool) (s : string) : bool :=
  match s with
  | String c r => p c && all_chars p r
  | EmptyString => true
  end.

(** The part of a number's lexeme after [e] or [E]. *)
Fixpoint exponent_text (s : string) : string :=
  match s with
  | String c r => if Ascii.eqb c "e" || Ascii.eqb c "E" then r else exponent_text r
  | EmptyString => EmptyString
  end.

Definition digit_value (c : ascii) : Z := (Z.of_N (code c) - 48)%Z.

(** The digits of [s] read as a decimal: [d] is the number read so far,
    [k] counts the digits after the point (downwards); a sign is skipped. *)
Fixpoint scan_digits (s : string) (point : bool) (d k : Z) : Z * Z :=
  match s with
  | String c r =>
      if is_digit c then
        scan_digits r point (10 * d + digit_value c)%Z (if point then (k - 1)%Z else k)
      else if Ascii.eqb c "." then scan_digits r true d k
      else scan_digits r point d k
  | EmptyString => (d, k)
  end.

Definition exponent (lexeme : string) : Z :=
  let text := exponent_text lexeme in
  let magnitude := fst (scan_digits text false 0%Z 0%Z) in
  match text with
  | String c _ => if Ascii.eqb c "-" then (- magnitude)%Z else magnitude
  | EmptyString => 0%Z
  end.

(** Whether the double a lexeme is read as is zero.  The lexeme denotes
    [d * 10 ^ x]; [JSON.parse] rounds it to the nearest double, ties to
    even, so it becomes zero when [d] is zero and when the value is at
    most [2 ^ -1075], half of the least positive double. *)
Definition num_is_zero (lexeme : string) : bool :=
  let '(d, k) := scan_digits (mantissa lexeme) false 0%Z 0%Z in
  let x := (k + exponent lexeme)%Z in
  (d =? 0)%Z || ((x <? 0)%Z && (d * 2 ^ 1075 <=? 10 ^ (- x))%Z).

(** Truthiness, as tested by [if], [while] and [!]. *)
Definition truthy (v : jsval) : bool :=
  match v with
  | None => false
  | Some JNull => false
  | Some (JBool b) => b
  | Some (JNum lexeme) => negb (num_is_zero lexeme)
  | Some (JStr s) => negb (String.eqb s "")
  | Some (JArr _) => true
  | Some (JObj _) => true
  end.

(** String conversion, as done by a template literal. *)
Fixpoint to_string_json (v : json) : string :=
  match v with
  | JNull => "null"
  | JBool true => "true"
  | JBool false => "false"
  | JNum lexeme => lexeme
  | JStr s => s
  | JArr items =>
      (fix join (l : list json) : string :=
         let item x := match x with JNull => "" | _ => to_string_json x end in
         match l with
         | [] => ""
         | [x] => item x
         | x :: l' => item x +:+ "," +:+ join l'
         end) items
  | JObj _ => "[object Object]"
  end.

Definition to_string (v : jsval) : string :=
  match v with
  | None => "undefined"
  | Some x => to_string_json x
  end.

Fixpoint assoc (k : string) (fields : list (string * json)) : jsval :=
  match fields with
  | [] => None
  | (k', v) :: rest => if String.eqb k' k then Some v else assoc k rest
  end.

(** [v.k] for the property names the class reads ([files], [parent],
    [path], [hash]): own properties of an object, nothing on other
    values, a TypeError on [null] and [undefined]. *)
Definition get_prop (v : jsval) (k : string) : outcome jsval :=
  match v with
  | None => Throw TypeError
  | Some JNull => Throw TypeError
  | Some (JObj fields) => Ok (assoc k fields)
  | Some _ => Ok None
  end.

(** [a === b]: arrays and objects read from two files are never the same
    object; numbers are compared by their lexemes. *)
Definition strict_eq (a b : jsval) : bool :=
  match a, b with
  | None, None => true
  | Some JNull, Some JNull => true
  | Some (JBool x), Some (JBool y) => Bool.eqb x y
  | Some (JNum x), Some (JNum y) => String.eqb x y
  | Some (JStr x), Some (JStr y) => String.eqb x y
  | _, _ => false
  end.

Fixpoint chars (s : string) : list json :=
  match s with
  | String c r => JStr (String c "") :: chars r
  | EmptyString => []
  end.

(** The values a [for ... of] loop visits; a string is visited
    character by character (here: byte by byte). *)
Definition iterate (v : jsval) : outcome (list json) :=
  match v with
  | Some (JArr items) => Ok items
  | Some (JStr s) => Ok (chars s)
  | _ => Throw TypeError
  end.

Definition indexed (l : list json) : list (string * json) :=
  imap (fun i x => (pretty i, x)) l.

Definition Object_entries (v : json) : outcome (list (string * json)) :=
  match v with
  | JNull => Throw TypeError
  | JObj fields => Ok fields
  | JArr items => Ok (indexed items)
  | JStr s => Ok (indexed (chars s))
  | JBool _ | JNum _ => Ok []
  end.

Definition Object_fromEntries (entries : list (string * json)) : json :=
  JObj (obj_of_entries entries).

(** [JSON.parse(x)] converts [x] to a string first, so [undefined] is
    parsed as the text [undefined]. *)
Definition JSON_parse (text : option string) : outcome json :=
  match parse (match text with Some s => s | None => "undefined" end) with
  | Some v => Ok v
  | None => Throw SyntaxError
  end.

Definition JSON_stringify (v : json) : string := stringify v.

(** [path.join(base, s)] for a segment [s] without separators or dots, as
    a hexadecimal digest is; an empty segment adds nothing. *)
Definition join (base s : string) : string :=
  if String.eqb s "" then base else base +:+ "/" +:+ s.

(** A segment that is not a string is a TypeError. *)
Definition path_join (base : string) (x : jsval) : outcome string :=
  match x with
  | Some (JStr s) => Ok (join base s)
  | _ => Throw TypeError
  end.

End Js.

(** ** The line diff *)

Module Diff.

Inductive kind : Type := equal | added | removed.

Record part : Type := Part { tag : kind; value : string }.

Definition kind_eqb (a b : kind) : bool :=
  match a, b with
  | equal, equal | added, added | removed, removed => true
  | _, _ => false
  end.

Definition newline : ascii := JSON.chr 10.

(** Whole lines, each with its terminator. *)
Fixpoint lines (s : string) : list string :=
  match s with
  | EmptyString => []
  | String c r =>
      if Ascii.eqb c newline then String c "" :: lines r
      else match lines r with
           | [] => [String c ""]
           | l :: ls => String c l :: ls
           end
  end.

Definition script : Type := list (kind * string).

Definition common (o : script) : nat :=
  length (List.filter (fun e => kind_eqb (fst e) equal) o).

(** An edit script that keeps a longest common subsequence of lines. *)
Fixpoint edit (xs : list string) : list string -> script :=
  match xs with
  | [] => map (pair added)
  | x :: xs' =>
      fix inner (ys : list string) : script :=
        match ys with
        | [] => map (pair removed) xs
        | y :: ys' =>
            if String.eqb x y then (equal, x) :: edit xs' ys'
            else
              let r := (removed, x) :: edit xs' ys in
              let a := (added, y) :: inner ys' in
              if (common a <=? common r)%nat then r else a
        end
  end.

(** Neighbouring lines of one kind form one segment. *)
Fixpoint segments (o : script) : list part :=
  match o with
  | [] => []
  | (k, s) :: o' =>
      match segments o' with
      | p :: ps =>
          if kind_eqb k (tag p) then Part k (s +:+ value p) :: ps
          else Part k s :: p :: ps
      | [] => [Part k s]
      end
  end.

(** Modelled from the spec: [diffLines] is imported from the package
    [diff], which is not part of the sources; section 4.4 describes it as
    a longest-common-subsequence line diff over whole lines with their
    terminators, returning ordered segments tagged equal, added or
    removed. *)
Definition diffLines (oldStr newStr : string) : list part :=
  segments (edit (lines oldStr) (lines newStr)).

(** The text rebuilt from the segments of the given kinds. *)
Fixpoint rebuild (keep : kind -> bool) (ps : list part) : string :=
  match ps with
  | [] => EmptyString
  | p :: ps' => if keep (tag p) then value p +:+ rebuild keep ps' else rebuild keep ps'
  end.

Definition old_side (k : kind) : bool := negb (kind_eqb k added).
Definition new_side (k : kind) : bool := negb (kind_eqb k removed).

Fixpoint join_lines (l : list string) : string :=
  match l with
  | [] => EmptyString
  | x :: l' => x +:+ join_lines l'
  end.

(** The lines of a script on one side of the comparison. *)
Definition side (keep : kind -> bool) (o : script) : list string :=
  map snd (List.filter (fun e => keep (fst e)) o).

Definition kept (k : kind) : bool := kind_eqb k equal.

End Diff.

(** ** The repository on disk and the effects of a call *)

Module Rit.
Import JSON Js Diff.

Inductive colour : Type := green | red | grey.

(** The effects a call leaves behind, in program order. *)
Inductive event : Type :=
| console_log (args : list jsval)
| console_table (v : json)
| stdout_write (c : colour) (s : string)
| fs_writeFile (path data : string).

(** Files by path; directories are taken to exist. *)
Record world : Type := World { disk : gmap string string; trace : list event }.

Definition M (A : Type) : Type := world -> outcome A * world.

Definition ret {A} (a : A) : M A := fun w => (Ok a, w).

Definition bind {A B} (m : M A) (k : A -> M B) : M B :=
  fun w =>
    match m w with
    | (Ok a, w') => k a w'
    | (Throw e, w') => (Throw e, w')
    | (OutOfFuel, w') => (OutOfFuel, w')
    end.

Definition lift {A} (r : outcome A) : M A := fun w => (r, w).

Definition try_catch {A} (m : M A) (handler : error -> M A) : M A :=
  fun w =>
    match m w with
    | (Throw e, w') => handler e w'
    | r => r
    end.

Declare Scope rit_scope.
Delimit Scope rit_scope with rit.
Notation "x <- m ;; k" := (bind m (fun x => k))
  (at level 100, m at next level, right associativity) : rit_scope.
Notation "m ;;; k" := (bind m (fun _ => k))
  (at level 100, right associativity) : rit_scope.
Local Open Scope rit_scope.

Definition emit (e : event) : M unit :=
  fun w => (Ok tt, World (disk w) (trace w ++ [e])).

Definition log_text (s : string) : M unit := emit (console_log [Some (JStr s)]).

Definition readFile (path : string) : M string :=
  fun w =>
    match disk w !! path with
    | Some data => (Ok data, w)
    | None => (Throw (ENOENT path), w)
    end.

Definition writeFile (path data : string) : M unit :=
  fun w => (Ok tt, World (<[path := data]> (disk w)) (trace w ++ [fs_writeFile path data])).

(** [writeFile] with the flag [wx]: fails if the file exists. *)
Definition writeFile_wx (path data : string) : M unit :=
  fun w =>
    match disk w !! path with
    | Some _ => (Throw (EEXIST "open" path), w)
    | None => writeFile path data w
    end.

(** The directories above [s], outermost first; [pre] is the part of the
    path already read. *)
Fixpoint parents (pre s : string) : list string :=
  match s with
  | String c r =>
      if Ascii.eqb c "/" then pre :: parents (pre +:+ "/") r
      else parents (pre +:+ String c "") r
  | EmptyString => []
  end.

Definition is_file (d : gmap string string) (path : string) : bool :=
  bool_decide (is_Some (d !! path)).

(** [fs.mkdir(path, { recursive: true })]: an existing directory is no
    error; a regular file above [path] is ENOTDIR, one at [path] is
    EEXIST.  Directories are not part of the disk, so nothing changes. *)
Definition mkdir_recursive (path : string) : M unit :=
  fun w =>
    if existsb (is_file (disk w)) (parents "" path) then (Throw (ENOTDIR "mkdir" path), w)
    else if is_file (disk w) path then (Throw (EEXIST "mkdir" path), w)
    else (Ok tt, w).

Fixpoint for_each {A} (l : list A) (body : A -> M unit) : M unit :=
  match l with
  | [] => ret tt
  | x :: l' => body x ;;; for_each l' body
  end.

(** The constructor's paths, for the default [repoPath = "."]. *)
Definition repoPath : string := ".rit".
Definition objectPath : string := ".rit/objects".
Definition headPath : string := ".rit/HEAD".
Definition indexPath : string := ".rit/index".

Definition init : M unit :=
  mkdir_recursive objectPath ;;;
  try_catch
    (writeFile_wx headPath "" ;;;
     writeFile_wx indexPath (JSON_stringify (JArr [])))
    (fun _ => log_text "Already exists .rit directory").

Definition hashObject (content : string) : string := Sha1.sha1_hex content.
#[global] Arguments hashObject : simpl never.

(** [index.push(...)]: only an array has [push]. *)
Definition push (index : json) (x : json) : outcome json :=
  match index with
  | JArr items => Ok (JArr (items ++ [x]))
  | _ => Throw TypeError
  end.

Definition updateStagingArea (filePath fileHash : string) : M unit :=
  text <- readFile indexPath ;;
  index <- lift (JSON_parse (Some text)) ;;
  index <- lift (push index (JObj [("path", JStr filePath); ("hash", JStr fileHash)])) ;;
  writeFile indexPath (JSON_stringify index).

Definition add (fileToBeAdded : string) : M unit :=
  fileData <- readFile fileToBeAdded ;;
  let fileHash := hashObject fileData in
  log_text fileHash ;;;
  newFileHashObjectPath <- lift (path_join objectPath (Some (JStr fileHash))) ;;
  writeFile newFileHashObjectPath fileData ;;;
  updateStagingArea fileToBeAdded fileHash ;;;
  log_text ("Added " +:+ fileToBeAdded).

Definition getCurrentHead : M json :=
  try_catch (text <- readFile headPath ;; ret (JStr text)) (fun _ => ret JNull).

(** [now] is the reading of the clock, [new Date().toISOString()]. *)
Definition commit (now : string) (message : string) : M unit :=
  text <- readFile indexPath ;;
  index <- lift (JSON_parse (Some text)) ;;
  parentCommit <- getCurrentHead ;;
  let commitData :=
    JObj [("timeStamp", JStr now); ("message", JStr message);
          ("files", index); ("parent", parentCommit)] in
  let commitHash := hashObject (JSON_stringify commitData) in
  commitPath <- lift (path_join objectPath (Some (JStr commitHash))) ;;
  writeFile commitPath (JSON_stringify commitData) ;;;
  writeFile headPath commitHash ;;;
  writeFile indexPath (JSON_stringify (JArr [])) ;;;
  log_text ("Committed with hash: " +:+ commitHash).

Definition separator : string :=
  "----------------------------------------------" +:+ nl.

Definition out_of_fuel {A} : M A := lift OutOfFuel.

(** The [while] loop of [log]; [fuel] bounds the number of iterations. *)
Fixpoint log_loop (fuel : nat) (currentCommitHash : jsval) : M unit :=
  if truthy currentCommitHash then
    match fuel with
    | O => out_of_fuel
    | S fuel' =>
        path <- lift (path_join objectPath currentCommitHash) ;;
        text <- readFile path ;;
        commitData <- lift (JSON_parse (Some text)) ;;
        log_text separator ;;;
        entries <- lift (Object_entries commitData) ;;
        emit (console_table
                (Object_fromEntries
                   (List.filter (fun kv => negb (String.eqb (fst kv) "files")) entries))) ;;;
        parent <- lift (get_prop (Some commitData) "parent") ;;
        log_loop fuel' parent
    end
  else ret tt.

Definition log (fuel : nat) : M unit :=
  currentCommitHash <- getCurrentHead ;;
  log_loop fuel (Some currentCommitHash).

Definition getCommitData (commitHash : jsval) : M (option string) :=
  commitPath <- lift (path_join objectPath commitHash) ;;
  try_catch
    (text <- readFile commitPath ;; ret (Some text))
    (fun error =>
       log_text ("Failed to read commit data " +:+ error_text error) ;;; ret None).

Definition getFileContent (fileHash : jsval) : M string :=
  objectPath' <- lift (path_join objectPath fileHash) ;;
  readFile objectPath'.

(** [files.find((file) => file.path === filePath)]. *)
Fixpoint find_path (items : list json) (filePath : jsval) : outcome jsval :=
  match items with
  | [] => Ok None
  | file :: rest =>
      match get_prop (Some file) "path" with
      | Ok p => if strict_eq p filePath then Ok (Some file) else find_path rest filePath
      | Throw e => Throw e
      | OutOfFuel => OutOfFuel
      end
  end.

Definition array_find (files : jsval) (filePath : jsval) : outcome jsval :=
  match files with
  | Some (JArr items) => find_path items filePath
  | _ => Throw TypeError
  end.

Definition getParentFileContent (parentCommitData : json) (filePath : jsval)
  : M (option string) :=
  files <- lift (get_prop (Some parentCommitData) "files") ;;
  parentFile <- lift (array_find files filePath) ;;
  if truthy parentFile then
    fileHash <- lift (get_prop parentFile "hash") ;;
    content <- getFileContent fileHash ;;
    ret (Some content)
  else ret None.

(** The call [diffLines(old, new)].  The package splits each argument
    into lines with a string method, so an [undefined] first argument is a
    TypeError. *)
Definition diffLines_call (oldStr : option string) (newStr : string)
  : outcome (list part) :=
  match oldStr with
  | Some o => Ok (diffLines o newStr)
  | None => Throw TypeError
  end.

Definition write_part (p : part) : M unit :=
  match tag p with
  | added => emit (stdout_write green ("++" +:+ value p))
  | removed => emit (stdout_write red ("--" +:+ value p))
  | equal => emit (stdout_write grey (value p))
  end.

(** [x !== "undefined"], for [x] a string or [undefined]. *)
Definition differs_from_text_undefined (x : option string) : bool :=
  match x with
  | Some s => negb (String.eqb s "undefined")
  | None => true
  end.

Definition show_file (commitData file : json) : M unit :=
  path <- lift (get_prop (Some file) "path") ;;
  log_text ("File : " +:+ to_string path) ;;;
  fileHash <- lift (get_prop (Some file) "hash") ;;
  fileContent <- getFileContent fileHash ;;
  log_text ("File content : " +:+ fileContent) ;;;
  parent <- lift (get_prop (Some commitData) "parent") ;;
  if truthy parent then
    text <- getCommitData parent ;;
    parentCommitData <- lift (JSON_parse text) ;;
    path <- lift (get_prop (Some file) "path") ;;
    getParentFileContent' <- getParentFileContent parentCommitData path ;;
    if differs_from_text_undefined getParentFileContent' then
      log_text (nl +:+ "Diff:") ;;;
      diff <- lift (diffLines_call getParentFileContent' fileContent) ;;
      for_each diff write_part ;;;
      emit (console_log [])
    else log_text "First Commit"
  else ret tt.

Definition showCommitDiff (commitHash : string) : M unit :=
  text <- getCommitData (Some (JStr commitHash)) ;;
  commitData <- lift (JSON_parse text) ;;
  if negb (truthy (Some commitData)) then log_text "commit data not found"
  else
    emit (console_log [Some commitData]) ;;;
    files <- lift (get_prop (Some commitData) "files") ;;
    items <- lift (iterate files) ;;
    for_each items (show_file commitData).

(** What [getCurrentHead] finds: the text of HEAD, or [null] when the
    file cannot be read. *)
Definition head_value (d : gmap string string) : json :=
  match d !! headPath with
  | Some text => JStr text
  | None => JNull
  end.

(** *** Typed views of the records the class writes *)

Record IndexEntry : Type := { path : string; hash : string }.

Record Commit : Type :=
  { timeStamp : string; message : string;
    files : list IndexEntry; parent : option string }.

Definition entry_json (e : IndexEntry) : json :=
  JObj [("path", JStr (path e)); ("hash", JStr (hash e))].

Definition parent_json (p : option string) : json :=
  match p with
  | Some h => JStr h
  | None => JNull
  end.

Definition commit_json (c : Commit) : json :=
  JObj [("timeStamp", JStr (timeStamp c)); ("message", JStr (message c));
        ("files", JArr (map entry_json (files c)));
        ("parent", parent_json (parent c))].

Definition serialize (c : Commit) : string := JSON_stringify (commit_json c).

Definition commit_hash (c : Commit) : string := hashObject (serialize c).

(** The file of the object named [h]. *)
Definition object_path (h : string) : string := join objectPath h.

(** The view of a commit that [log] tabulates: every field but [files]. *)
Definition metadata (c : Commit) : json :=
  JObj [("timeStamp", JStr (timeStamp c)); ("message", JStr (message c));
        ("parent", parent_json (parent c))].

(** [chain d cur cs]: following parent links from [cur] in the object
    store [d] visits the commits [cs] and ends at a commit whose parent is
    empty. *)
Inductive chain (d : gmap string string) : jsval -> list Commit -> Prop :=
| chain_root (cur : jsval) :
    truthy cur = false -> chain d cur []
| chain_link (h text : string) (c : Commit) (rest : list Commit) :
    h <> "" ->
    d !! object_path h = Some text ->
    parse text = Some (commit_json c) ->
    chain d (Some (parent_json (parent c))) rest ->
    chain d (Some (JStr h)) (c :: rest).

(** The lines [log] prints for one commit. *)
Definition log_record (c : Commit) : list event :=
  [console_log [Some (JStr separator)]; console_table (metadata c)].

(** The content stored for a staged entry. *)
Definition blob (d : gmap string string) (e : IndexEntry) : string :=
  default "" (d !! object_path (hash e)).

(** The lines [showCommitDiff] prints for a file before it looks at the
    parent. *)
Definition file_lines (d : gmap string string) (e : IndexEntry) : list event :=
  [console_log [Some (JStr ("File : " +:+ path e))];
   console_log [Some (JStr ("File content : " +:+ blob d e))]].

(** What [write_part] sends to the standard output for a segment. *)
Definition rendered (p : part) : event :=
  match tag p with
  | added => stdout_write green ("++" +:+ value p)
  | removed => stdout_write red ("--" +:+ value p)
  | equal => stdout_write grey (value p)
  end.

(** The commit that HEAD names, as read from the object store. *)
Definition stored_commit (d : gmap string string) : option json :=
  h ← d !! headPath; text ← d !! object_path h; parse text.

End Rit.

(** ** A recorded session, used to exercise the statements *)

Module Session.
Import JSON Js Diff Rit.
Local Open Scope rit_scope.

Definition t1 : string := "2026-11-02T09:00:00.000Z".
Definition t2 : string := "2026-11-02T10:00:00.000Z".
Definition t3 : string := "2026-11-02T11:00:00.000Z".

(** The user saves a file in the working tree. *)
Definition save (path data : string) (w : world) : world :=
  World (<[path := data]> (disk w)) (trace w).

Definition quiet (w : world) : world := World (disk w) [].

Definition empty : world := World ∅ [].

(** [init], [add a.txt], [commit first]. *)
Definition repo1 : world :=
  quiet (snd ((init ;;; add "a.txt" ;;; commit t1 "first")
                (save "a.txt" ("hello" +:+ nl) empty))).

(** [a.txt] gets a second line; [add a.txt], [commit second]. *)
Definition repo2 : world :=
  quiet (snd ((add "a.txt" ;;; commit t2 "second")
                (save "a.txt" ("hello" +:+ nl +:+ "world" +:+ nl) repo1))).

(** A new file [b.txt]; [add b.txt], [commit third]. *)
Definition repo3 : world :=
  quiet (snd ((add "b.txt" ;;; commit t3 "third")
                (save "b.txt" ("new" +:+ nl) repo2))).

Definition head_of (w : world) : string := default "" (disk w !! headPath).

(** [init], [add a.txt], nothing committed yet. *)
Definition staged : world :=
  quiet (snd ((init ;;; add "a.txt") (save "a.txt" ("hello" +:+ nl) empty))).

(** The three commits of the session. *)
Definition c1 : Commit :=
  {| timeStamp := t1; message := "first";
     files := [{| path := "a.txt"; hash := hashObject ("hello" +:+ nl) |}];
     parent := Some "" |}.

Definition c2 : Commit :=
  {| timeStamp := t2; message := "second";
     files := [{| path := "a.txt";
                  hash := hashObject ("hello" +:+ nl +:+ "world" +:+ nl) |}];
     parent := Some (commit_hash c1) |}.

Definition c3 : Commit :=
  {| timeStamp := t3; message := "third";
     files := [{| path := "b.txt"; hash := hashObject ("new" +:+ nl) |}];
     parent := Some (commit_hash c2) |}.

End Session.

(** ** Invariants of the files on disk *)

Module Laws.
Import JSON Js Diff Rit.
Local Open Scope rit_scope.

(** [preserves I m]: whatever its outcome, [m] leaves the files in a state
    satisfying [I] when it starts in one. *)
Definition preserves {A} (I : gmap string string -> Prop) (m : M A) : Prop :=
  forall w, I (disk w) -> I (disk (snd (m w))).

(** [I] survives the three kinds of write the class makes: to HEAD, to
    the index, and of a text to the object named by its digest. *)
Definition stable (I : gmap string string -> Prop) : Prop :=
  (forall d data, I d -> I (<[headPath := data]> d)) /\
  (forall d data, I d -> I (<[indexPath := data]> d)) /\
  (forall d data, I d -> I (<[object_path (hashObject data) := data]> d)).

(** Every object is stored under the digest of its text. *)
Definition content_addressed (d : gmap string string) : Prop :=
  forall h text,
    d !! object_path h = Some text -> object_path (hashObject text) = object_path h.

(** A path of the working tree: neither HEAD, nor the index, nor an
    object. *)
Definition outside_repository (k : string) : Prop :=
  k <> headPath /\ k <> indexPath /\ forall h, k <> object_path h.

(** [walk d cur cs next]: following parent links from [cur] visits the
    commits [cs] and arrives at [next]. *)
Inductive walk (d : gmap string string) : jsval -> list Commit -> jsval -> Prop :=
| walk_here (cur : jsval) : walk d cur [] cur
| walk_link (h text : string) (c : Commit) (rest : list Commit) (next : jsval) :
    h <> "" ->
    d !! object_path h = Some text ->
    parse text = Some (commit_json c) ->
    walk d (Some (parent_json (parent c))) rest next ->
    walk d (Some (JStr h)) (c :: rest) next.

Definition is_lower_hex (c : ascii) : bool :=
  let n := code c in
  (((48 <=? n) && (n <=? 57)) || ((97 <=? n) && (n <=? 102)))%N.

(** A tampered store: an object that names itself as its parent. *)
Definition looping : Commit :=
  {| timeStamp := Session.t1; message := "loop"; files := []; parent := Some "loop" |}.

Definition tampered : world :=
  World (<[object_path "loop" := serialize looping]> (<[headPath := "loop"]> ∅)) [].

(** A working tree with one file and no repository. *)
Definition bare : world := Session.save "a.txt" ("hello" +:+ nl) Session.empty.

(** A working tree with one file and a fresh repository. *)
Definition fresh : world :=
  Session.quiet (snd (init (Session.save "a.txt" ("hello" +:+ nl) Session.empty))).

(** The second commit of the session and its blob, without the first
    commit: the parent link dangles. *)
Definition orphan : world :=
  World (<[headPath := commit_hash Session.c2]>
           (<[object_path (commit_hash Session.c2) := serialize Session.c2]>
              (<[object_path (hashObject ("hello" +:+ nl +:+ "world" +:+ nl)) :=
                   "hello" +:+ nl +:+ "world" +:+ nl]> ∅))) [].

(** A file holding the word [null] has been added. *)
Definition nullish : world :=
  Session.quiet (snd ((init ;;; add "n.json") (Session.save "n.json" "null" Session.empty))).

(** A file holding an empty JSON object has been added. *)
Definition jsonish : world :=
  Session.quiet (snd ((init ;;; add "p.json") (Session.save "p.json" "{}" Session.empty))).

(** A file holding the word [undefined] is committed, then changed and
    committed again. *)
Definition undef1 : world :=
  Session.quiet (snd ((init ;;; add "u.txt" ;;; commit Session.t1 "first")
                        (Session.save "u.txt" "undefined" Session.empty))).

Definition undef2 : world :=
  Session.quiet (snd ((add "u.txt" ;;; commit Session.t2 "second")
                        (Session.save "u.txt" ("defined" +:+ nl) undef1))).

Definition cu1 : Commit :=
  {| timeStamp := Session.t1; message := "first";
     files := [{| path := "u.txt"; hash := hashObject "undefined" |}];
     parent := Some "" |}.

Definition cu2 : Commit :=
  {| timeStamp := Session.t2; message := "second";
     files := [{| path := "u.txt"; hash := hashObject ("defined" +:+ nl) |}];
     parent := Some (commit_hash cu1) |}.

End Laws.


(** * Properties *)

Import JSON Js Diff Rit.
Local Open Scope rit_scope.

(** ** The line diff *)

Section DiffFacts.

Lemma append_nil_r (s : string) : s +:+ "" = s.
Proof. induction s as [|c s IH]; simpl; [reflexivity | now rewrite IH]. Qed.

Lemma append_assoc (a b c : string) : (a +:+ b) +:+ c = a +:+ (b +:+ c).
Proof. induction a as [|x a IH]; simpl; [reflexivity | now rewrite IH]. Qed.

Lemma lines_join (s : string) : join_lines (lines s) = s.
Proof.
  induction s as [|c s IH]; simpl; [reflexivity |].
  destruct (Ascii.eqb c newline).
  - simpl. now rewrite IH.
  - destruct (lines s) as [|l ls] eqn:E; simpl in *.
    + now rewrite <- IH.
    + now rewrite <- IH.
Qed.

Lemma edit_cons_cons x xs y ys :
  edit (x :: xs) (y :: ys) =
  if String.eqb x y then (equal, x) :: edit xs ys
  else
    let r := (removed, x) :: edit xs (y :: ys) in
    let a := (added, y) :: edit (x :: xs) ys in
    if (common a <=? common r)%nat then r else a.
Proof. reflexivity. Qed.

Lemma edit_cons_nil x xs : edit (x :: xs) [] = map (pair removed) (x :: xs).
Proof. reflexivity. Qed.

Lemma side_all_old (l : list string) : side old_side (map (pair removed) l) = l.
Proof. induction l as [|x l IH]; simpl; [reflexivity | unfold side in *; simpl; now rewrite IH]. Qed.

Lemma side_none_new (l : list string) : side new_side (map (pair removed) l) = [].
Proof. induction l as [|x l IH]; simpl; [reflexivity | exact IH]. Qed.

Lemma side_all_new (l : list string) : side new_side (map (pair added) l) = l.
Proof. induction l as [|x l IH]; simpl; [reflexivity | unfold side in *; simpl; now rewrite IH]. Qed.

Lemma side_none_old (l : list string) : side old_side (map (pair added) l) = [].
Proof. induction l as [|x l IH]; simpl; [reflexivity | exact IH]. Qed.

Lemma side_cons (keep : kind -> bool) k s (o : script) :
  side keep ((k, s) :: o) = if keep k then s :: side keep o else side keep o.
Proof. unfold side; simpl. now destruct (keep k). Qed.

Lemma edit_sides (xs ys : list string) :
  side old_side (edit xs ys) = xs /\ side new_side (edit xs ys) = ys.
Proof.
  revert ys. induction xs as [|x xs IHx]; intros ys.
  - simpl. split; [apply side_none_old | apply side_all_new].
  - induction ys as [|y ys IHy].
    + rewrite edit_cons_nil. split; [apply side_all_old | apply side_none_new].
    + rewrite edit_cons_cons.
      destruct (String.eqb_spec x y) as [->|Hxy].
      * destruct (IHx ys) as [Ho Hn]. rewrite !side_cons, Ho, Hn. now split.
      * cbv zeta.
        destruct (common _ <=? common _)%nat; rewrite !side_cons.
        -- destruct (IHx (y :: ys)) as [Ho Hn]. rewrite Ho, Hn. now split.
        -- destruct IHy as [Ho Hn]. rewrite Ho, Hn. now split.
Qed.

Lemma rebuild_segments (keep : kind -> bool) (o : script) :
  rebuild keep (segments o) = join_lines (side keep o).
Proof.
  induction o as [|[k s] o IH]; [reflexivity |].
  rewrite side_cons. simpl segments.
  destruct (segments o) as [|p ps] eqn:E.
  - simpl in IH. simpl rebuild.
    destruct (keep k); simpl; rewrite <- IH; [now rewrite append_nil_r | reflexivity].
  - destruct (kind_eqb k (tag p)) eqn:Ek.
    + assert (k = tag p) as -> by (destruct k, (tag p); simpl in Ek; congruence).
      simpl in *. destruct (keep (tag p)); simpl; [| exact IH].
      rewrite append_assoc. now rewrite IH.
    + simpl in *. destruct (keep k); simpl; now rewrite IH.
Qed.

(** The lines a script keeps are a longest common subsequence of the two
    texts. *)
Lemma common_side (o : script) : common o = length (side kept o).
Proof. unfold common, side, kept. now rewrite length_map. Qed.

Lemma common_added (l : list string) : common (map (pair added) l) = 0.
Proof. induction l as [|x l IH]; [reflexivity | exact IH]. Qed.

Lemma common_removed (l : list string) : common (map (pair removed) l) = 0.
Proof. induction l as [|x l IH]; [reflexivity | exact IH]. Qed.

Lemma common_cons k s (o : script) :
  common ((k, s) :: o) = if kept k then S (common o) else common o.
Proof. unfold common, kept. simpl. now destruct (kind_eqb k equal). Qed.

Lemma common_cons_cons x xs y ys :
  common (edit (x :: xs) (y :: ys)) =
  if String.eqb x y then S (common (edit xs ys))
  else Nat.max (common (edit xs (y :: ys))) (common (edit (x :: xs) ys)).
Proof.
  rewrite edit_cons_cons. destruct (String.eqb x y); [apply common_cons |].
  cbv zeta. rewrite !common_cons. simpl kept. cbv iota.
  destruct (Nat.leb_spec (common (edit (x :: xs) ys)) (common (edit xs (y :: ys))));
    rewrite common_cons; simpl kept; cbv iota; lia.
Qed.

Lemma edit_longest (xs ys zs : list string) :
  sublist zs xs -> sublist zs ys -> length zs <= common (edit xs ys).
Proof.
  revert ys zs. induction xs as [|x xs IHx]; intros ys zs Hx Hy.
  - apply sublist_nil_r in Hx as ->. simpl. lia.
  - revert zs Hx Hy. induction ys as [|y ys IHy]; intros zs Hx Hy.
    + apply sublist_nil_r in Hy as ->. simpl. lia.
    + rewrite common_cons_cons.
      apply sublist_cons_r in Hx as Hx'. apply sublist_cons_r in Hy as Hy'.
      destruct (String.eqb_spec x y) as [-> | Hne].
      * destruct zs as [|z zs]; [simpl; lia |].
        assert (sublist zs xs) as H1.
        { destruct Hx' as [H | (l' & E & H)]; [| congruence].
          eapply sublist_cons_l in H as (k1 & k2 & -> & H).
          now apply sublist_inserts_l, sublist_cons. }
        assert (sublist zs ys) as H2.
        { destruct Hy' as [H | (l' & E & H)]; [| congruence].
          eapply sublist_cons_l in H as (k1 & k2 & -> & H).
          now apply sublist_inserts_l, sublist_cons. }
        specialize (IHx ys zs H1 H2). simpl. lia.
      * destruct Hx' as [H1 | (l1 & -> & H1)].
        { specialize (IHx (y :: ys) zs H1 Hy). lia. }
        destruct Hy' as [H2 | (l2 & E & H2)].
        { specialize (IHy (x :: l1) Hx H2). lia. }
        congruence.
Qed.

Lemma kept_sublist_old (o : script) : sublist (side kept o) (side old_side o).
Proof.
  induction o as [|[k s] o IH]; [constructor |].
  rewrite !side_cons. destruct k; simpl; first [exact IH | constructor; exact IH].
Qed.

Lemma kept_sublist_new (o : script) : sublist (side kept o) (side new_side o).
Proof.
  induction o as [|[k s] o IH]; [constructor |].
  rewrite !side_cons. destruct k; simpl; first [exact IH | constructor; exact IH].
Qed.

Lemma edit_keeps_longest_common_subsequence (xs ys : list string) :
  let zs := side kept (edit xs ys) in
  sublist zs xs /\ sublist zs ys /\
  forall zs', sublist zs' xs -> sublist zs' ys -> length zs' <= length zs.
Proof.
  intros zs. destruct (edit_sides xs ys) as [Ho Hn].
  split; [| split].
  - unfold zs. rewrite <- Ho at 2. apply kept_sublist_old.
  - unfold zs. rewrite <- Hn at 2. apply kept_sublist_new.
  - intros zs' H1 H2. unfold zs. rewrite <- common_side. now apply edit_longest.
Qed.

(** C1. For every pair of texts, the call [diffLines(old, new)] made by
    [showCommitDiff] returns segments, each tagged equal, added or
    removed, such that the equal and removed segments in order spell the
    old text and the equal and added segments in order spell the new
    text. *)
Theorem diffLines_round_trip (oldStr newStr : string) :
  exists ps : list part,
    diffLines_call (Some oldStr) newStr = Ok ps /\
    rebuild old_side ps = oldStr /\
    rebuild new_side ps = newStr.
Proof.
  exists (diffLines oldStr newStr). split; [reflexivity |].
  unfold diffLines. rewrite !rebuild_segments.
  destruct (edit_sides (lines oldStr) (lines newStr)) as [Ho Hn].
  rewrite Ho, Hn. split; apply lines_join.
Qed.

End DiffFacts.

(** ** The platform functions on known inputs *)

Section KnownAnswers.

Example sha1_abc : Sha1.sha1_hex "abc" = "a9993e364706816aba3e25717850c26c9cd0d89d".
Proof. vm_compute. reflexivity. Qed.

Example sha1_empty : Sha1.sha1_hex "" = "da39a3ee5e6b4b0d3255bfef95601890afd80709".
Proof. vm_compute. reflexivity. Qed.

Example sha1_two_blocks :
  Sha1.sha1_hex "abcdbcdecdefdefgefghfghighijhijkijkljklmklmnlmnomnopnopq"
  = "84983e441c3bd26ebaae4aa1f95129e5e54670f1".
Proof. vm_compute. reflexivity. Qed.

Example parse_undefined : parse "undefined" = None.
Proof. reflexivity. Qed.

Example parse_spaced :
  parse " [ true , null ,[ ] , { } ] " = Some (JArr [JBool true; JNull; JArr []; JObj []]).
Proof. reflexivity. Qed.

Example parse_trailing_comma : parse "[null,]" = None.
Proof. reflexivity. Qed.

Example parse_repeated_key :
  parse (stringify (JObj [("a", JNull); ("b", JBool true); ("a", JBool false)]))
  = Some (JObj [("a", JBool false); ("b", JBool true)]).
Proof. reflexivity. Qed.

Example parse_nested :
  parse "[[[[[[[[[[[[[[[[[[[[{}]]]]]]]]]]]]]]]]]]]]" =
  Some (Nat.iter 20 (fun v => JArr [v]) (JObj [])).
Proof. reflexivity. Qed.

Example stringify_escapes :
  parse (stringify (JStr (String dquote (String backslash nl)))) =
  Some (JStr (String dquote (String backslash nl))).
Proof. reflexivity. Qed.

(** Numbers that [JSON.parse] reads as zero, and their neighbours. *)
Example zero_lexemes :
  map num_is_zero ["0"; "-0.0e5"; "1e-400"; "2e-324"; "3e-324"; "5e-324"; "1"; "0.1e1"] =
  [true; true; true; true; false; false; false; false].
Proof. vm_compute. reflexivity. Qed.

End KnownAnswers.

(** ** [JSON.parse] reads back what [JSON.stringify] writes *)

Section JsonFacts.

Lemma json_ind' (P : json -> Prop)
  (Hnull : P JNull) (Hbool : forall b, P (JBool b)) (Hnum : forall l, P (JNum l))
  (Hstr : forall s, P (JStr s))
  (Harr : forall items, Forall P items -> P (JArr items))
  (Hobj : forall fields, Forall (fun kv => P (snd kv)) fields -> P (JObj fields)) :
  forall v, P v.
Proof.
  fix IH 1. intros [| b | l | s | items | fields].
  - exact Hnull.
  - apply Hbool.
  - apply Hnum.
  - apply Hstr.
  - apply Harr. induction items as [|x items IHi]; constructor; [apply IH | exact IHi].
  - apply Hobj. induction fields as [|[k x] fields IHf]; constructor; [apply IH | exact IHf].
Qed.

Lemma length_append (a b : string) :
  String.length (a +:+ b) = String.length a + String.length b.
Proof. induction a as [|c a IH]; simpl; [reflexivity | now rewrite IH]. Qed.

Lemma parse_chars_escape_char (c : ascii) (rest : string) :
  parse_chars (escape_char c +:+ rest) = prepend (String c "") (parse_chars rest).
Proof.
  destruct c as [[] [] [] [] [] [] [] []]; reflexivity.
Qed.

Lemma parse_chars_escape (s rest : string) :
  parse_chars (escape s +:+ String dquote rest) = Some (s, rest).
Proof.
  induction s as [|c s IH].
  - reflexivity.
  - simpl escape. rewrite append_assoc, parse_chars_escape_char, IH. reflexivity.
Qed.

Lemma stringify_arr items : stringify (JArr items) = "[" +:+ elems items +:+ "]".
Proof. reflexivity. Qed.

Lemma stringify_obj fields : stringify (JObj fields) = "{" +:+ members fields +:+ "}".
Proof. reflexivity. Qed.

Lemma parse_value_str f r :
  parse_value (S f) (String dquote r) =
  match parse_chars r with Some (x, r') => Some (JStr x, r') | None => None end.
Proof. simpl. destruct (parse_chars r) as [[x r']|]; reflexivity. Qed.

Lemma parse_value_arr f r :
  parse_value (S f) (String "[" r) =
  match skip_ws r with
  | String c' r' =>
      if Ascii.eqb c' "]" then Some (JArr [], r')
      else match parse_elems f r with Some (l, r'') => Some (JArr l, r'') | None => None end
  | EmptyString => None
  end.
Proof.
  simpl. destruct (skip_ws r) as [|c' r']; [reflexivity |].
  destruct (Ascii.eqb c' "]"); [reflexivity |].
  destruct (parse_elems f r) as [[l r'']|]; reflexivity.
Qed.

Lemma parse_value_obj f r :
  parse_value (S f) (String "{" r) =
  match skip_ws r with
  | String c' r' =>
      if Ascii.eqb c' "}" then Some (JObj [], r')
      else match parse_members f r with
           | Some (l, r'') => Some (JObj (obj_of_entries l), r'')
           | None => None
           end
  | EmptyString => None
  end.
Proof.
  simpl. destruct (skip_ws r) as [|c' r']; [reflexivity |].
  destruct (Ascii.eqb c' "}"); [reflexivity |].
  destruct (parse_members f r) as [[l r'']|]; reflexivity.
Qed.

Lemma parse_elems_S f s :
  parse_elems (S f) s =
  match parse_value f s with
  | Some (v, r) =>
      match skip_ws r with
      | String c r' =>
          if Ascii.eqb c "," then
            match parse_elems f r' with Some (l, r'') => Some (v :: l, r'') | None => None end
          else if Ascii.eqb c "]" then Some ([v], r')
          else None
      | EmptyString => None
      end
  | None => None
  end.
Proof.
  simpl. destruct (parse_value f s) as [[v r]|]; [| reflexivity]. simpl.
  destruct (skip_ws r) as [|c r']; [reflexivity |].
  destruct (Ascii.eqb c ","); [| reflexivity].
  destruct (parse_elems f r') as [[l r'']|]; reflexivity.
Qed.

Lemma parse_members_S f r :
  parse_members (S f) (String dquote r) =
  match parse_chars r with
  | Some (k, r1) =>
      match skip_ws r1 with
      | String c r2 =>
          if Ascii.eqb c ":" then
            match parse_value f r2 with
            | Some (v, r3) =>
                match skip_ws r3 with
                | String c' r4 =>
                    if Ascii.eqb c' "," then
                      match parse_members f r4 with
                      | Some (l, r5) => Some ((k, v) :: l, r5)
                      | None => None
                      end
                    else if Ascii.eqb c' "}" then Some ([(k, v)], r4)
                    else None
                | EmptyString => None
                end
            | None => None
            end
          else None
      | EmptyString => None
      end
  | None => None
  end.
Proof.
  simpl. destruct (parse_chars r) as [[k r1]|]; [| reflexivity]. simpl.
  destruct (skip_ws r1) as [|c r2]; [reflexivity |].
  destruct (Ascii.eqb c ":"); [| reflexivity].
  destruct (parse_value f r2) as [[v r3]|]; [| reflexivity]. simpl.
  destruct (skip_ws r3) as [|c' r4]; [reflexivity |].
  destruct (Ascii.eqb c' ","); [| reflexivity].
  destruct (parse_members f r4) as [[l r5]|]; reflexivity.
Qed.

Lemma size_pos v : 1 <= size v.
Proof. destruct v; simpl; lia. Qed.

Lemma stringify_head v rest :
  plain v = true ->
  exists c r, stringify v +:+ rest = String c r /\
              is_ws c = false /\ Ascii.eqb c "]" = false.
Proof.
  destruct v as [| [|] | l | s | items | fields]; intros Hp; try discriminate;
    try (eexists _, _; split; [reflexivity | split; reflexivity]).
Qed.

Lemma append_cons c (a b : string) : String c a +:+ b = String c (a +:+ b).
Proof. reflexivity. Qed.

Lemma append_nil_l (b : string) : "" +:+ b = b.
Proof. reflexivity. Qed.

Ltac norm_app :=
  repeat (rewrite append_assoc || rewrite append_cons || rewrite append_nil_l).

Lemma skip_ws_stop c r : is_ws c = false -> skip_ws (String c r) = String c r.
Proof. intros H. simpl. now rewrite H. Qed.

Lemma parse_elems_stringify (items : list json) :
  items <> [] ->
  Forall reads_back items ->
  forallb plain items = true ->
  forall fuel rest,
    2 * list_sum (map size items) + 1 <= fuel ->
    parse_elems fuel (elems items +:+ String "]" rest) = Some (items, rest).
Proof.
  induction items as [|x l IH]; [congruence |].
  intros _ HF Hp fuel rest Hfuel.
  apply Forall_cons_1 in HF as [Hx HF].
  simpl in Hp. apply andb_true_iff in Hp as [Hpx Hpl].
  simpl in Hfuel. pose proof (size_pos x).
  destruct fuel as [|f]; [lia |].
  rewrite parse_elems_S.
  destruct l as [|y l].
  - simpl elems. rewrite (Hx Hpx) by lia. reflexivity.
  - change (elems (x :: y :: l)) with (stringify x +:+ "," +:+ elems (y :: l)).
    norm_app. rewrite (Hx Hpx) by (simpl in *; lia).
    rewrite skip_ws_stop by reflexivity.
    change (Ascii.eqb "," ",") with true. cbv iota.
    rewrite IH; [reflexivity | congruence | exact HF | exact Hpl | simpl in *; lia].
Qed.

Lemma parse_members_stringify (fields : list (string * json)) :
  fields <> [] ->
  Forall (fun kv => reads_back (snd kv)) fields ->
  forallb (fun kv => plain (snd kv)) fields = true ->
  forall fuel rest,
    2 * list_sum (map (fun kv => size (snd kv)) fields) + 1 <= fuel ->
    parse_members fuel (members fields +:+ String "}" rest) = Some (fields, rest).
Proof.
  induction fields as [|[k x] l IH]; [congruence |].
  intros _ HF Hp fuel rest Hfuel.
  apply Forall_cons_1 in HF as [Hx HF]. simpl in Hx.
  simpl in Hp. apply andb_true_iff in Hp as [Hpx Hpl].
  simpl in Hfuel. pose proof (size_pos x).
  destruct fuel as [|f]; [lia |].
  destruct l as [|[k' y] l].
  - change (members [(k, x)]) with (quote k +:+ ":" +:+ stringify x).
    unfold quote. norm_app.
    rewrite parse_members_S, parse_chars_escape.
    rewrite skip_ws_stop by reflexivity.
    change (Ascii.eqb ":" ":") with true. cbv iota.
    rewrite (Hx Hpx) by lia. reflexivity.
  - change (members ((k, x) :: (k', y) :: l))
      with (quote k +:+ ":" +:+ stringify x +:+ "," +:+ members ((k', y) :: l)).
    unfold quote at 1. norm_app.
    rewrite parse_members_S, parse_chars_escape.
    rewrite skip_ws_stop by reflexivity.
    change (Ascii.eqb ":" ":") with true. cbv iota.
    rewrite (Hx Hpx) by (simpl in *; lia).
    rewrite skip_ws_stop by reflexivity.
    change (Ascii.eqb "," ",") with true. cbv iota.
    rewrite IH; [reflexivity | congruence | exact HF | exact Hpl | simpl in *; lia].
Qed.

Lemma obj_set_fresh k v (acc : list (string * json)) :
  existsb (String.eqb k) (map fst acc) = false -> obj_set k v acc = acc ++ [(k, v)].
Proof.
  induction acc as [|[k' v'] acc IH]; simpl; [reflexivity |].
  intros H. apply orb_false_iff in H as [Hk H].
  rewrite String.eqb_sym, Hk. now rewrite IH.
Qed.

Lemma existsb_app_false k (a b : list string) :
  existsb (String.eqb k) (a ++ b) = false <->
  existsb (String.eqb k) a = false /\ existsb (String.eqb k) b = false.
Proof. rewrite existsb_app. apply orb_false_iff. Qed.

Lemma fold_obj_set (l acc : list (string * json)) :
  distinct (map fst acc ++ map fst l) = true ->
  fold_left (fun acc kv => obj_set (fst kv) (snd kv) acc) l acc = acc ++ l.
Proof.
  revert acc. induction l as [|[k v] l IH]; intros acc H; simpl.
  - now rewrite app_nil_r.
  - assert (existsb (String.eqb k) (map fst acc) = false) as Hk.
    { clear IH. induction acc as [|[k' v'] acc IHa]; simpl in *; [reflexivity |].
      apply andb_true_iff in H as [H1 H2]. apply negb_true_iff in H1.
      apply existsb_app_false in H1 as [_ H1]. simpl in H1.
      apply orb_false_iff in H1 as [H1 _].
      rewrite String.eqb_sym, H1. simpl. now apply IHa. }
    rewrite obj_set_fresh by exact Hk.
    rewrite IH.
    + now rewrite <- app_assoc.
    + rewrite map_app. simpl. now rewrite <- app_assoc.
Qed.

Lemma obj_of_entries_distinct (fields : list (string * json)) :
  distinct (map fst fields) = true -> obj_of_entries fields = fields.
Proof. intros H. unfold obj_of_entries. now rewrite fold_obj_set. Qed.

Lemma parse_value_stringify (v : json) : reads_back v.
Proof.
  induction v as [| b | l | s | items IH | fields IH] using json_ind';
    intros Hp fuel rest Hfuel; (destruct fuel as [|f]; [simpl in Hfuel; lia |]).
  - reflexivity.
  - destruct b; reflexivity.
  - discriminate.
  - unfold stringify, quote. norm_app.
    rewrite parse_value_str. now rewrite parse_chars_escape.
  - rewrite stringify_arr. norm_app. rewrite parse_value_arr.
    destruct items as [|x items]; [reflexivity |].
    simpl in Hp. pose proof Hp as Hp'. apply andb_true_iff in Hp' as [Hpx _].
    assert (exists c r, elems (x :: items) +:+ String "]" rest = String c r /\
                        is_ws c = false /\ Ascii.eqb c "]" = false)
      as (c & r & Hhd & Hws & Hc).
    { destruct items as [|y items].
      - apply stringify_head; exact Hpx.
      - change (elems (x :: y :: items)) with (stringify x +:+ "," +:+ elems (y :: items)).
        rewrite append_assoc. apply stringify_head; exact Hpx. }
    rewrite parse_elems_stringify; [| congruence | exact IH | exact Hp | simpl in *; lia].
    rewrite Hhd. simpl. rewrite Hws, Hc. reflexivity.
  - rewrite stringify_obj. norm_app. rewrite parse_value_obj.
    destruct fields as [|[k x] fields]; [reflexivity |].
    apply andb_true_iff in Hp as [Hp Hd].
    rewrite parse_members_stringify; [| congruence | exact IH | exact Hp | simpl in *; lia].
    rewrite obj_of_entries_distinct by exact Hd.
    destruct fields as [|[k' y] fields]; reflexivity.
Qed.

Lemma size_le_length (v : json) :
  plain v = true -> size v <= String.length (stringify v).
Proof.
  induction v as [| b | l | s | items IH | fields IH] using json_ind'; intros Hp.
  - simpl; lia.
  - destruct b; simpl; lia.
  - discriminate.
  - simpl. lia.
  - rewrite stringify_arr, !length_append. simpl in *.
    enough (list_sum (map size items) <= String.length (elems items)) by lia.
    induction IH as [|x items Hx _ IHi]; [simpl; lia |].
    simpl in Hp. apply andb_true_iff in Hp as [Hpx Hpl].
    specialize (Hx Hpx). specialize (IHi Hpl).
    destruct items as [|y items]; [simpl in *; lia |].
    change (elems (x :: y :: items)) with (stringify x +:+ "," +:+ elems (y :: items)).
    rewrite !length_append. simpl in *. lia.
  - rewrite stringify_obj, !length_append. simpl in *.
    apply andb_true_iff in Hp as [Hp _].
    enough (list_sum (map (fun kv => size (snd kv)) fields) <= String.length (members fields))
      by lia.
    induction IH as [|[k x] fields Hx _ IHi]; [simpl; lia |].
    simpl in Hp. apply andb_true_iff in Hp as [Hpx Hpl].
    specialize (Hx Hpx). specialize (IHi Hpl).
    destruct fields as [|[k' y] fields].
    + change (members [(k, x)]) with (quote k +:+ ":" +:+ stringify x).
      rewrite !length_append. simpl in *. lia.
    + change (members ((k, x) :: (k', y) :: fields))
        with (quote k +:+ ":" +:+ stringify x +:+ "," +:+ members ((k', y) :: fields)).
      rewrite !length_append. simpl in *. lia.
Qed.

(** A value without numbers and without repeated keys is read back from
    its serialization. *)
Lemma parse_stringify (v : json) : plain v = true -> parse (stringify v) = Some v.
Proof.
  intros Hp. unfold parse.
  pose proof (size_le_length v Hp) as Hs.
  rewrite <- (append_nil_r (stringify v)) at 2.
  rewrite (parse_value_stringify v Hp) by lia. reflexivity.
Qed.


End JsonFacts.

(** ** The digest has 160 bits *)

Section Sha1Facts.
Local Open Scope Z_scope.

Lemma w32_range (x : Z) : 0 <= Sha1.w32 x < 2 ^ 32.
Proof. unfold Sha1.w32. apply Z.mod_pos_bound. reflexivity. Qed.

Lemma compress_range (h : Sha1.hstate) (block : list Z) :
  Sha1.in_range (Sha1.compress h block).
Proof.
  unfold Sha1.compress.
  destruct (fold_left _ _ h) as [[[[a b] c] d] e].
  destruct h as [[[[h0 h1] h2] h3] h4].
  unfold Sha1.in_range. repeat split; apply w32_range.
Qed.

Lemma blocks_S (n : nat) (ws : list Z) (h : Sha1.hstate) :
  Sha1.blocks (S n) ws h =
  match ws with
  | _ :: _ => Sha1.blocks n (skipn 16 ws) (Sha1.compress h (firstn 16 ws))
  | [] => h
  end.
Proof. reflexivity. Qed.

Lemma blocks_range (n : nat) (ws : list Z) (h : Sha1.hstate) :
  Sha1.in_range h -> Sha1.in_range (Sha1.blocks n ws h).
Proof.
  revert ws h. induction n as [|n IH]; intros ws h Hh; [exact Hh |].
  rewrite blocks_S. destruct ws as [|x ws]; [exact Hh |].
  apply IH, compress_range.
Qed.

Lemma shift_in (m x y : Z) :
  0 <= x < m -> 0 <= y < 2 ^ 32 -> 0 <= x * 2 ^ 32 + y < m * 2 ^ 32.
Proof. intros Hx Hy. nia. Qed.

Lemma pack_range (h : Sha1.hstate) : Sha1.in_range h -> 0 <= Sha1.pack h < 2 ^ 160.
Proof.
  destruct h as [[[[h0 h1] h2] h3] h4]. intros (H0 & H1 & H2 & H3 & H4).
  unfold Sha1.pack.
  change (2 ^ 160) with (2 ^ 32 * 2 ^ 32 * 2 ^ 32 * 2 ^ 32 * 2 ^ 32).
  repeat apply shift_in; assumption.
Qed.

Lemma digest_range (s : string) : 0 <= Sha1.digest s < 2 ^ 160.
Proof.
  unfold Sha1.digest. apply pack_range, blocks_range.
  unfold Sha1.in_range, Sha1.init_state. repeat split; reflexivity || discriminate.
Qed.

End Sha1Facts.

(** ** The repository *)

Section RitFacts.

#[local] Arguments JSON_stringify : simpl never.
#[local] Arguments parse : simpl never.

Lemma object_path_not_head h : object_path h <> headPath.
Proof. unfold object_path, join. destruct (String.eqb h ""); simpl; discriminate. Qed.

Lemma object_path_not_index h : object_path h <> indexPath.
Proof. unfold object_path, join. destruct (String.eqb h ""); simpl; discriminate. Qed.

Lemma head_not_index : headPath <> indexPath.
Proof. discriminate. Qed.

Lemma getCurrentHead_run (w : world) :
  getCurrentHead w = (Ok (head_value (disk w)), w).
Proof.
  unfold getCurrentHead, try_catch, bind, readFile, ret, head_value.
  destruct (disk w !! headPath); reflexivity.
Qed.

Lemma world_eta (w : world) : World (disk w) (trace w) = w.
Proof. now destruct w. Qed.

Lemma commit_run (now message text : string) (index : json) (w : world) :
  disk w !! indexPath = Some text ->
  parse text = Some index ->
  let commitData :=
    JObj [("timeStamp", JStr now); ("message", JStr message);
          ("files", index); ("parent", head_value (disk w))] in
  let bytes := JSON_stringify commitData in
  let commitHash := hashObject bytes in
  commit now message w =
  (Ok tt,
   World (<[indexPath := "[]"]>
            (<[headPath := commitHash]>
               (<[object_path commitHash := bytes]> (disk w))))
         (trace w ++
            [fs_writeFile (object_path commitHash) bytes;
             fs_writeFile headPath commitHash;
             fs_writeFile indexPath "[]";
             console_log [Some (JStr ("Committed with hash: " +:+ commitHash))]])).
Proof.
  intros Hidx Hparse commitData bytes commitHash.
  unfold commit, bind at 1, readFile. rewrite Hidx.
  unfold bind at 1, lift, JSON_parse. rewrite Hparse.
  unfold bind at 1. rewrite getCurrentHead_run.
  fold commitData. fold bytes. fold commitHash.
  unfold bind, path_join, writeFile, log_text, emit. simpl.
  unfold object_path. rewrite <- !app_assoc. reflexivity.
Qed.

Lemma committed_lookups (d : gmap string string) (h bytes : string) :
  let d' := <[indexPath := "[]"]> (<[headPath := h]> (<[object_path h := bytes]> d)) in
  d' !! object_path h = Some bytes /\
  d' !! headPath = Some h /\
  d' !! indexPath = Some "[]".
Proof.
  intros d'. unfold d'. split; [| split].
  - rewrite lookup_insert_ne by (apply not_eq_sym, object_path_not_index).
    rewrite lookup_insert_ne by (apply not_eq_sym, object_path_not_head).
    apply lookup_insert_eq.
  - rewrite lookup_insert_ne by (apply not_eq_sym, head_not_index).
    apply lookup_insert_eq.
  - apply lookup_insert_eq.
Qed.

(** C4. Whenever the index file can be read and parsed, [commit] builds
    the record [{timeStamp, message, files = index, parent = head}],
    hashes its serialization, and performs exactly these effects in this
    order: it writes the serialization under its hash in the object
    store, writes the hash to HEAD, and writes the empty list to the
    index; afterwards the index is empty and HEAD holds the hash of the
    new commit. *)
Theorem commit_effects (now message text : string) (index : json) (w : world) :
  disk w !! indexPath = Some text ->
  parse text = Some index ->
  let commitData :=
    JObj [("timeStamp", JStr now); ("message", JStr message);
          ("files", index); ("parent", head_value (disk w))] in
  let bytes := JSON_stringify commitData in
  let commitHash := hashObject bytes in
  let w' :=
    World (<[indexPath := "[]"]>
             (<[headPath := commitHash]>
                (<[object_path commitHash := bytes]> (disk w))))
          (trace w ++
             [fs_writeFile (object_path commitHash) bytes;
              fs_writeFile headPath commitHash;
              fs_writeFile indexPath "[]";
              console_log [Some (JStr ("Committed with hash: " +:+ commitHash))]]) in
  commit now message w = (Ok tt, w') /\
  disk w' !! object_path commitHash = Some bytes /\
  disk w' !! headPath = Some commitHash /\
  disk w' !! indexPath = Some "[]" /\
  JSON_parse (Some "[]") = Ok (JArr []).
Proof.
  intros Hidx Hparse commitData bytes commitHash w'.
  destruct (committed_lookups (disk w) commitHash bytes) as (Hobj & Hhead & Hindex).
  split; [exact (commit_run now message text index w Hidx Hparse) |].
  split; [exact Hobj |]. split; [exact Hhead |]. split; [exact Hindex | reflexivity].
Qed.

Lemma updateStagingArea_run (filePath fileHash : string) (w : world) :
  updateStagingArea filePath fileHash w =
  match disk w !! indexPath with
  | None => (Throw (ENOENT indexPath), w)
  | Some text =>
      match parse text with
      | None => (Throw SyntaxError, w)
      | Some (JArr items) =>
          let text' :=
            JSON_stringify
              (JArr (items ++ [JObj [("path", JStr filePath); ("hash", JStr fileHash)]])) in
          (Ok tt, World (<[indexPath := text']> (disk w))
                        (trace w ++ [fs_writeFile indexPath text']))
      | Some _ => (Throw TypeError, w)
      end
  end.
Proof.
  unfold updateStagingArea, bind at 1, readFile.
  destruct (disk w !! indexPath) as [text|]; [| reflexivity].
  unfold bind at 1, lift, JSON_parse.
  destruct (parse text) as [index|]; [| reflexivity].
  destruct index; reflexivity.
Qed.

Lemma updateStagingArea_frame (filePath fileHash : string) (w : world) (k : string) :
  k <> indexPath ->
  disk (snd (updateStagingArea filePath fileHash w)) !! k = disk w !! k.
Proof.
  intros Hk. rewrite updateStagingArea_run.
  destruct (disk w !! indexPath) as [text|]; [| reflexivity].
  destruct (parse text) as [[| | | | items |]|]; try reflexivity.
  simpl. now rewrite lookup_insert_ne by congruence.
Qed.

(** C8. Whatever the index holds and whatever path and hash are staged,
    the staging step of [add] writes back the entries it read, in their
    order, followed by the new entry: nothing is merged, replaced or
    dropped, also when the path is already staged. *)
Theorem updateStagingArea_appends
  (filePath fileHash text : string) (items : list json) (w : world) :
  disk w !! indexPath = Some text ->
  parse text = Some (JArr items) ->
  let entry := JObj [("path", JStr filePath); ("hash", JStr fileHash)] in
  let text' := JSON_stringify (JArr (items ++ [entry])) in
  updateStagingArea filePath fileHash w =
    (Ok tt, World (<[indexPath := text']> (disk w))
                  (trace w ++ [fs_writeFile indexPath text'])) /\
  (plain (JArr items) = true ->
   JSON_parse (Some text') = Ok (JArr (items ++ [entry]))).
Proof.
  intros Hidx Hparse entry text'. split.
  - rewrite updateStagingArea_run, Hidx, Hparse. reflexivity.
  - intros Hp. unfold JSON_parse, text', JSON_stringify.
    rewrite parse_stringify; [reflexivity |].
    simpl in *. rewrite forallb_app, Hp. reflexivity.
Qed.

Lemma add_run (fileToBeAdded : string) (w : world) :
  add fileToBeAdded w =
  match disk w !! fileToBeAdded with
  | None => (Throw (ENOENT fileToBeAdded), w)
  | Some fileData =>
      let fileHash := hashObject fileData in
      let w1 :=
        World (<[object_path fileHash := fileData]> (disk w))
              (trace w ++ [console_log [Some (JStr fileHash)];
                           fs_writeFile (object_path fileHash) fileData]) in
      match updateStagingArea fileToBeAdded fileHash w1 with
      | (Ok _, w2) =>
          (Ok tt, World (disk w2)
                        (trace w2 ++ [console_log [Some (JStr ("Added " +:+ fileToBeAdded))]]))
      | (Throw e, w2) => (Throw e, w2)
      | (OutOfFuel, w2) => (OutOfFuel, w2)
      end
  end.
Proof.
  unfold add, bind at 1, readFile.
  destruct (disk w !! fileToBeAdded) as [fileData|]; [| reflexivity].
  unfold bind at 1, log_text, emit. unfold bind at 1, lift, path_join.
  unfold bind at 1, writeFile. simpl disk. simpl trace.
  rewrite <- app_assoc. simpl app. fold (object_path (hashObject fileData)).
  unfold bind.
  destruct (updateStagingArea _ _ _) as [[[]| e |] w2]; reflexivity.
Qed.

(** [add] on a readable file and a well-formed index: the blob is written
    first, then the index with the new entry at its end. *)
Lemma add_stages (fileToBeAdded content text : string) (items : list json) (w : world) :
  disk w !! fileToBeAdded = Some content ->
  disk w !! indexPath = Some text ->
  parse text = Some (JArr items) ->
  let fileHash := hashObject content in
  let text' :=
    JSON_stringify
      (JArr (items ++ [JObj [("path", JStr fileToBeAdded); ("hash", JStr fileHash)]])) in
  add fileToBeAdded w =
  (Ok tt,
   World (<[indexPath := text']> (<[object_path fileHash := content]> (disk w)))
         (trace w ++
            [console_log [Some (JStr fileHash)];
             fs_writeFile (object_path fileHash) content;
             fs_writeFile indexPath text';
             console_log [Some (JStr ("Added " +:+ fileToBeAdded))]])).
Proof.
  intros Hfile Hidx Hparse fileHash text'.
  rewrite add_run, Hfile. cbv zeta. rewrite updateStagingArea_run. cbn [disk trace].
  rewrite lookup_insert_ne by apply object_path_not_index.
  rewrite Hidx, Hparse. cbv zeta. cbn [disk trace].
  now rewrite <- !app_assoc.
Qed.

(** C5. For every content, once [add] has written it to the object store
    under its hash, [getFileContent] of that hash returns the content:
    get(put(C)) = C. *)
Theorem add_then_getFileContent
  (fileToBeAdded content : string) (w : world) :
  disk w !! fileToBeAdded = Some content ->
  let w' := snd (add fileToBeAdded w) in
  getFileContent (Some (JStr (hashObject content))) w' = (Ok content, w').
Proof.
  intros Hfile w'.
  assert (disk w' !! object_path (hashObject content) = Some content) as Hblob.
  { unfold w'. rewrite add_run, Hfile. cbv zeta.
    set (w1 := World _ _).
    pose proof (updateStagingArea_frame fileToBeAdded (hashObject content) w1
                  (object_path (hashObject content)) (object_path_not_index _)) as Hfr.
    destruct (updateStagingArea _ _ w1) as [[[]| e |] w2]; simpl in *;
      rewrite Hfr; unfold w1; simpl; apply lookup_insert_eq. }
  unfold getFileContent, bind, lift, path_join, readFile.
  fold (object_path (hashObject content)). now rewrite Hblob.
Qed.

Lemma head_value_parent (d : gmap string string) :
  head_value d = parent_json (d !! headPath).
Proof. unfold head_value. now destruct (d !! headPath). Qed.

Lemma plain_entries (es : list IndexEntry) : forallb plain (map entry_json es) = true.
Proof. induction es as [|e es IH]; simpl; [reflexivity | exact IH]. Qed.

Lemma parse_entries (es : list IndexEntry) :
  parse (JSON_stringify (JArr (map entry_json es))) = Some (JArr (map entry_json es)).
Proof. apply parse_stringify. simpl. apply plain_entries. Qed.

Lemma plain_commit (c : Commit) : plain (commit_json c) = true.
Proof.
  unfold commit_json. simpl. rewrite plain_entries.
  destruct (parent c); reflexivity.
Qed.

Lemma parse_serialize (c : Commit) : parse (serialize c) = Some (commit_json c).
Proof. apply parse_stringify, plain_commit. Qed.

Lemma entry_json_inj (e1 e2 : IndexEntry) : entry_json e1 = entry_json e2 -> e1 = e2.
Proof. destruct e1, e2. unfold entry_json; simpl. congruence. Qed.



(** The record [commit] writes when the index holds well-formed entries. *)
Lemma commit_typed (now message text : string) (es : list IndexEntry) (w : world) :
  disk w !! indexPath = Some text ->
  parse text = Some (JArr (map entry_json es)) ->
  let c := {| timeStamp := now; message := message;
              files := es; parent := disk w !! headPath |} in
  let w' := snd (commit now message w) in
  fst (commit now message w) = Ok tt /\
  disk w' !! headPath = Some (commit_hash c) /\
  disk w' !! object_path (commit_hash c) = Some (serialize c) /\
  disk w' !! indexPath = Some "[]" /\
  (forall k, k <> headPath -> k <> indexPath -> k <> object_path (commit_hash c) ->
             disk w' !! k = disk w !! k).
Proof.
  intros Hidx Hparse c w'.
  pose proof (commit_run now message text _ w Hidx Hparse) as Hrun.
  cbv zeta in Hrun. rewrite head_value_parent in Hrun.
  change (JObj _) with (commit_json c) in Hrun.
  change (JSON_stringify (commit_json c)) with (serialize c) in Hrun.
  change (hashObject (serialize c)) with (commit_hash c) in Hrun.
  destruct (committed_lookups (disk w) (commit_hash c) (serialize c))
    as (Hobj & Hhead & Hindex).
  unfold w'. rewrite Hrun. cbn [fst snd disk].
  repeat split; try assumption.
  intros k H1 H2 H3. now rewrite !lookup_insert_ne by congruence.
Qed.

Lemma commit_typed_stored (now message text : string) (es : list IndexEntry) (w : world) :
  disk w !! indexPath = Some text ->
  parse text = Some (JArr (map entry_json es)) ->
  stored_commit (disk (snd (commit now message w))) =
  Some (commit_json {| timeStamp := now; message := message;
                       files := es; parent := disk w !! headPath |}).
Proof.
  intros Hidx Hparse.
  destruct (commit_typed now message text es w Hidx Hparse) as (_ & Hhead & Hobj & _).
  unfold stored_commit. rewrite Hhead. simpl. rewrite Hobj. simpl.
  apply parse_serialize.
Qed.

(** C7, amended. Committing with an empty staging index stores a commit
    that parses back, whose files field is the empty list and whose parent
    is the text HEAD held before: the empty string when HEAD is empty, as
    [init] leaves it, and [null] only when HEAD cannot be read. *)
Theorem commit_empty_index (now message text : string) (w : world) :
  disk w !! indexPath = Some text ->
  parse text = Some (JArr []) ->
  let c := {| timeStamp := now; message := message;
              files := []; parent := disk w !! headPath |} in
  let w' := snd (commit now message w) in
  fst (commit now message w) = Ok tt /\
  stored_commit (disk w') = Some (commit_json c) /\
  get_prop (Some (commit_json c)) "files" = Ok (Some (JArr [])) /\
  get_prop (Some (commit_json c)) "parent" = Ok (Some (head_value (disk w))) /\
  (disk w !! headPath = Some "" -> head_value (disk w) = JStr "") /\
  (disk w !! headPath = None -> head_value (disk w) = JNull).
Proof.
  intros Hidx Hparse c w'.
  destruct (commit_typed now message text [] w Hidx Hparse) as (Hok & _).
  split; [exact Hok |]. split; [| split; [| split; [| split]]].
  - exact (commit_typed_stored now message text [] w Hidx Hparse).
  - reflexivity.
  - simpl. now rewrite head_value_parent.
  - unfold head_value. now intros ->.
  - unfold head_value. now intros ->.
Qed.

Lemma log_loop_stop (fuel : nat) (cur : jsval) (w : world) :
  truthy cur = false -> log_loop fuel cur w = (Ok tt, w).
Proof. intros H. destruct fuel; simpl; rewrite H; reflexivity. Qed.

Lemma log_loop_step (fuel : nat) (h text : string) (c : Commit) (w : world) :
  h <> "" ->
  disk w !! object_path h = Some text ->
  parse text = Some (commit_json c) ->
  log_loop (S fuel) (Some (JStr h)) w =
  log_loop fuel (Some (parent_json (parent c)))
    (World (disk w) (trace w ++ log_record c)).
Proof.
  intros Hh Hobj Hparse.
  change (log_loop (S fuel) (Some (JStr h)) w) with
    ((if truthy (Some (JStr h)) then
        path <- lift (path_join objectPath (Some (JStr h))) ;;
        text <- readFile path ;;
        commitData <- lift (JSON_parse (Some text)) ;;
        log_text separator ;;;
        entries <- lift (Object_entries commitData) ;;
        emit (console_table
                (Object_fromEntries
                   (List.filter (fun kv => negb (String.eqb (fst kv) "files")) entries))) ;;;
        parent <- lift (get_prop (Some commitData) "parent") ;;
        log_loop fuel parent
      else ret tt) w).
  assert (truthy (Some (JStr h)) = true) as ->.
  { simpl. apply negb_true_iff, String.eqb_neq, Hh. }
  unfold bind at 1, lift, path_join. fold (object_path h).
  unfold bind at 1, readFile. rewrite Hobj.
  unfold bind at 1, JSON_parse. rewrite Hparse.
  unfold bind at 1, log_text, emit.
  unfold bind at 1. unfold commit_json at 1. unfold Object_entries.
  unfold bind at 1. unfold bind at 1.
  unfold get_prop, commit_json at 1. simpl assoc.
  unfold log_record, metadata. simpl disk. simpl trace.
  rewrite <- app_assoc. reflexivity.
Qed.

Lemma log_loop_chain (cs : list Commit) (cur : jsval) (d : gmap string string) :
  chain d cur cs ->
  forall (fuel : nat) (tr : list event),
    length cs <= fuel ->
    log_loop fuel cur (World d tr) =
    (Ok tt, World d (tr ++ concat (map log_record cs))).
Proof.
  induction 1 as [cur Hroot | h text c rest Hh Hobj Hparse Hrest IH]; intros fuel tr Hfuel.
  - rewrite log_loop_stop by exact Hroot. simpl. now rewrite app_nil_r.
  - destruct fuel as [|fuel]; [simpl in Hfuel; lia |].
    rewrite (log_loop_step fuel h text c) by assumption.
    simpl disk. simpl trace. rewrite IH by (simpl in Hfuel; lia).
    simpl. now rewrite <- app_assoc.
Qed.

(** C9. When the parent chain from HEAD is finite, [log] prints the
    commits newest first: it starts at HEAD, follows the parent links
    until the parent is empty, and prints for each commit its time stamp,
    message and parent, without the files list; with fuel for every link
    the loop terminates, and the files of the repository are unchanged. *)
Theorem log_walks_chain (w : world) (cs : list Commit) (fuel : nat) :
  chain (disk w) (Some (head_value (disk w))) cs ->
  length cs <= fuel ->
  log fuel w = (Ok tt, World (disk w) (trace w ++ concat (map log_record cs))).
Proof.
  intros Hchain Hfuel. unfold log, bind. rewrite getCurrentHead_run.
  destruct w as [d tr]. simpl in *. now apply log_loop_chain.
Qed.

Lemma mkdir_recursive_objectPath (w : world) :
  mkdir_recursive objectPath w =
  match disk w !! repoPath with
  | Some _ => (Throw (ENOTDIR "mkdir" objectPath), w)
  | None =>
      match disk w !! objectPath with
      | Some _ => (Throw (EEXIST "mkdir" objectPath), w)
      | None => (Ok tt, w)
      end
  end.
Proof.
  unfold mkdir_recursive. change (parents "" objectPath) with [repoPath].
  unfold existsb, is_file.
  destruct (disk w !! repoPath); [reflexivity |].
  destruct (disk w !! objectPath); reflexivity.
Qed.

Lemma mkdir_recursive_cases (path : string) (w : world) :
  mkdir_recursive path w = (Ok tt, w) \/ exists e, mkdir_recursive path w = (Throw e, w).
Proof.
  unfold mkdir_recursive.
  destruct (existsb _ _); [right; eexists; reflexivity |].
  destruct (is_file _ _); [right; eexists; reflexivity | now left].
Qed.

Lemma init_blocked (e : error) (w : world) :
  mkdir_recursive objectPath w = (Throw e, w) -> init w = (Throw e, w).
Proof. intros H. unfold init, bind at 1. now rewrite H. Qed.

Lemma init_run (w : world) :
  mkdir_recursive objectPath w = (Ok tt, w) ->
  init w =
  match disk w !! headPath with
  | Some _ =>
      (Ok tt, World (disk w)
                (trace w ++ [console_log [Some (JStr "Already exists .rit directory")]]))
  | None =>
      match disk w !! indexPath with
      | Some _ =>
          (Ok tt, World (<[headPath := ""]> (disk w))
                    (trace w ++ [fs_writeFile headPath "";
                                 console_log [Some (JStr "Already exists .rit directory")]]))
      | None =>
          (Ok tt, World (<[indexPath := "[]"]> (<[headPath := ""]> (disk w)))
                    (trace w ++ [fs_writeFile headPath ""; fs_writeFile indexPath "[]"]))
      end
  end.
Proof.
  intros Hmk. unfold init, bind at 1. rewrite Hmk.
  unfold try_catch, bind, writeFile_wx.
  destruct (disk w !! headPath) as [h|] eqn:Hh; [reflexivity |].
  cbn [writeFile disk trace].
  rewrite lookup_insert_ne by exact head_not_index.
  destruct (disk w !! indexPath) as [i|] eqn:Hi;
    unfold log_text, emit, writeFile; cbn [disk trace];
    now rewrite <- app_assoc.
Qed.

Lemma init_leaves_head (w : world) :
  disk w !! headPath = None ->
  fst (init w) = Ok tt ->
  disk (snd (init w)) !! headPath = Some "".
Proof.
  intros Hhead Hok.
  destruct (mkdir_recursive_cases objectPath w) as [Hmk | [e Hmk]].
  - rewrite (init_run w Hmk), Hhead.
    destruct (disk w !! indexPath); cbn [snd disk].
    + apply lookup_insert_eq.
    + rewrite lookup_insert_ne by (apply not_eq_sym, head_not_index).
      apply lookup_insert_eq.
  - rewrite (init_blocked e w Hmk) in Hok. discriminate.
Qed.

Lemma add_keeps_head (fileToBeAdded : string) (w : world) :
  disk (snd (add fileToBeAdded w)) !! headPath = disk w !! headPath.
Proof.
  rewrite add_run.
  destruct (disk w !! fileToBeAdded) as [fileData|]; [| reflexivity].
  cbv zeta.
  match goal with
  | |- context [updateStagingArea ?p ?h ?w1] =>
      pose proof (updateStagingArea_frame p h w1 headPath head_not_index) as Hframe;
      destruct (updateStagingArea p h w1) as [[[] | e |] w2]
  end;
    cbn [snd disk] in *; rewrite Hframe;
    now rewrite lookup_insert_ne by apply object_path_not_head.
Qed.

Lemma log_loop_walk (d : gmap string string) (cur next : jsval) (cs : list Commit) :
  Laws.walk d cur cs next ->
  forall (fuel : nat) (tr : list event),
    log_loop (length cs + fuel) cur (World d tr) =
    log_loop fuel next (World d (tr ++ concat (map log_record cs))).
Proof.
  induction 1 as [cur | h text c rest next Hh Hobj Hparse Hrest IH]; intros fuel tr.
  - simpl. now rewrite app_nil_r.
  - change (length (c :: rest) + fuel) with (S (length rest + fuel)).
    rewrite (log_loop_step _ h text c (World d tr) Hh Hobj Hparse).
    cbn [disk trace]. rewrite IH. simpl. now rewrite <- app_assoc.
Qed.

Lemma bind_lift_ok {A B} (a : A) (k : A -> M B) (w : world) :
  bind (lift (Ok a)) k w = k a w.
Proof. reflexivity. Qed.

Lemma bind_lift_throw {A B} (e : error) (k : A -> M B) (w : world) :
  bind (lift (Throw e)) k w = (Throw e, w).
Proof. reflexivity. Qed.

Lemma bind_emit {B} (ev : event) (k : unit -> M B) (w : world) :
  bind (emit ev) k w = k tt (World (disk w) (trace w ++ [ev])).
Proof. reflexivity. Qed.

Lemma bind_log_text {B} (s : string) (k : unit -> M B) (w : world) :
  bind (log_text s) k w = k tt (World (disk w) (trace w ++ [console_log [Some (JStr s)]])).
Proof. reflexivity. Qed.

Lemma bind_run {A B} (m : M A) (k : A -> M B) (w w' : world) (a : A) :
  m w = (Ok a, w') -> bind m k w = k a w'.
Proof. intros H. unfold bind. now rewrite H. Qed.

Lemma bind_throw {A B} (m : M A) (k : A -> M B) (w w' : world) (e : error) :
  m w = (Throw e, w') -> bind m k w = (Throw e, w').
Proof. intros H. unfold bind. now rewrite H. Qed.

Lemma get_prop_entry_path (e : IndexEntry) :
  get_prop (Some (entry_json e)) "path" = Ok (Some (JStr (path e))).
Proof. reflexivity. Qed.

Lemma get_prop_entry_hash (e : IndexEntry) :
  get_prop (Some (entry_json e)) "hash" = Ok (Some (JStr (hash e))).
Proof. reflexivity. Qed.

Lemma get_prop_commit_files (c : Commit) :
  get_prop (Some (commit_json c)) "files" = Ok (Some (JArr (map entry_json (files c)))).
Proof. reflexivity. Qed.

Lemma get_prop_commit_parent (c : Commit) :
  get_prop (Some (commit_json c)) "parent" = Ok (Some (parent_json (parent c))).
Proof. reflexivity. Qed.

Ltac step :=
  first [ rewrite bind_lift_ok | rewrite bind_lift_throw
        | rewrite bind_log_text | rewrite bind_emit ];
  cbv beta; simpl disk; simpl trace.

Lemma getCommitData_found (h text : string) (w : world) :
  disk w !! object_path h = Some text ->
  getCommitData (Some (JStr h)) w = (Ok (Some text), w).
Proof.
  intros H. unfold getCommitData, bind at 1, lift, path_join. fold (object_path h).
  unfold try_catch, bind, readFile. now rewrite H.
Qed.

Lemma getCommitData_missing (h : string) (w : world) :
  disk w !! object_path h = None ->
  getCommitData (Some (JStr h)) w =
  (Ok None,
   World (disk w)
     (trace w ++
        [console_log
           [Some (JStr ("Failed to read commit data " +:+
                        error_text (ENOENT (object_path h))))]])).
Proof.
  intros H. unfold getCommitData, bind at 1, lift, path_join. fold (object_path h).
  unfold try_catch, bind, readFile. now rewrite H.
Qed.

Lemma getFileContent_found (h content : string) (w : world) :
  disk w !! object_path h = Some content ->
  getFileContent (Some (JStr h)) w = (Ok content, w).
Proof.
  intros H. unfold getFileContent, bind, lift, path_join, readFile.
  fold (object_path h). now rewrite H.
Qed.

Lemma showCommitDiff_found (h text : string) (c : Commit) (w : world) :
  disk w !! object_path h = Some text ->
  parse text = Some (commit_json c) ->
  showCommitDiff h w =
  for_each (map entry_json (files c)) (show_file (commit_json c))
    (World (disk w) (trace w ++ [console_log [Some (commit_json c)]])).
Proof.
  intros Hobj Hparse. unfold showCommitDiff.
  rewrite (bind_run _ _ _ _ _ (getCommitData_found h text w Hobj)).
  unfold JSON_parse. rewrite Hparse. step.
  change (negb (truthy (Some (commit_json c)))) with false. cbv iota.
  step. rewrite get_prop_commit_files. step. simpl iterate. step. reflexivity.
Qed.

Lemma show_file_root (c : Commit) (e : IndexEntry) (w : world) :
  truthy (Some (parent_json (parent c))) = false ->
  is_Some (disk w !! object_path (hash e)) ->
  show_file (commit_json c) (entry_json e) w =
  (Ok tt, World (disk w) (trace w ++ file_lines (disk w) e)).
Proof.
  intros Hroot [content Hblob]. destruct w as [d tr]. simpl in Hblob.
  unfold show_file.
  rewrite get_prop_entry_path. step. step.
  rewrite get_prop_entry_hash. step.
  rewrite (bind_run _ _ _ _ _ (getFileContent_found (hash e) content (World d _) Hblob)).
  step. rewrite get_prop_commit_parent. step. rewrite Hroot.
  unfold ret, file_lines, blob. rewrite Hblob. simpl.
  now rewrite <- app_assoc.
Qed.

Lemma show_files_root (c : Commit) (d : gmap string string) (es : list IndexEntry) :
  truthy (Some (parent_json (parent c))) = false ->
  Forall (fun e => is_Some (d !! object_path (hash e))) es ->
  forall tr,
    for_each (map entry_json es) (show_file (commit_json c)) (World d tr) =
    (Ok tt, World d (tr ++ concat (map (file_lines d) es))).
Proof.
  intros Hroot Hall. induction Hall as [|e es He _ IH]; intros tr.
  - simpl. now rewrite app_nil_r.
  - simpl for_each.
    rewrite (bind_run _ _ _ _ _ (show_file_root c e (World d tr) Hroot He)).
    simpl disk. simpl trace. rewrite IH. simpl. now rewrite <- app_assoc.
Qed.

(** C10. A successful [init] on a directory without HEAD leaves HEAD
    empty, [add] never changes HEAD, and a commit made while HEAD is empty
    is stored with the empty string as parent, not [null], whatever is
    staged.  A commit whose parent is the empty string is treated exactly
    as one whose parent is [null], wherever it sits in the history: when
    the walk of [log] from HEAD reaches it, [log] prints it and stops; and
    [showCommitDiff] of it prints each file and its content without
    reading a parent or computing a diff. *)
Theorem empty_parent_marks_root :
  (forall w : world,
     disk w !! headPath = None ->
     fst (init w) = Ok tt ->
     disk (snd (init w)) !! headPath = Some "") /\
  (forall (fileToBeAdded : string) (w : world),
     disk (snd (add fileToBeAdded w)) !! headPath = disk w !! headPath) /\
  (forall (now message text : string) (es : list IndexEntry) (w : world),
     disk w !! headPath = Some "" ->
     disk w !! indexPath = Some text ->
     parse text = Some (JArr (map entry_json es)) ->
     stored_commit (disk (snd (commit now message w))) =
       Some (commit_json {| timeStamp := now; message := message;
                            files := es; parent := Some "" |})) /\
  (forall (d : gmap string string) (h text : string) (c : Commit),
     parent c = Some "" \/ parent c = None ->
     h <> "" ->
     d !! object_path h = Some text ->
     parse text = Some (commit_json c) ->
     (forall (cs : list Commit) (fuel : nat) (tr : list event),
        Laws.walk d (Some (head_value d)) cs (Some (JStr h)) ->
        log (length cs + S fuel) (World d tr) =
        (Ok tt, World d (tr ++ concat (map log_record (cs ++ [c]))))) /\
     (forall tr : list event,
        Forall (fun e => is_Some (d !! object_path (hash e))) (files c) ->
        showCommitDiff h (World d tr) =
        (Ok tt, World d (tr ++ console_log [Some (commit_json c)]
                            :: concat (map (file_lines d) (files c)))))).
Proof.
  split; [exact init_leaves_head |]. split; [exact add_keeps_head |]. split.
  - intros now message text es w Hhead Hidx Hparse.
    pose proof (commit_typed_stored now message text es w Hidx Hparse) as Hst.
    now rewrite Hhead in Hst.
  - intros d h text c Hparent Hh Hobj Hparse.
    assert (truthy (Some (parent_json (parent c))) = false) as Hroot
      by (destruct Hparent as [-> | ->]; reflexivity).
    split.
    + intros cs fuel tr Hwalk.
      unfold log, bind. rewrite getCurrentHead_run. cbn [disk].
      rewrite (log_loop_walk d _ _ cs Hwalk).
      rewrite (log_loop_step fuel h text c) by assumption.
      rewrite log_loop_stop by exact Hroot. cbn [disk trace].
      rewrite map_app, concat_app. cbn [map concat].
      now rewrite app_nil_r, <- app_assoc.
    + intros tr Hblobs.
      rewrite (showCommitDiff_found h text c) by assumption.
      simpl disk. simpl trace. rewrite show_files_root by assumption.
      now rewrite <- app_assoc.
Qed.

(** C3: what the code does for a hash without an object. The read error
    is caught and logged, [JSON.parse(undefined)] then throws a
    SyntaxError, and the check that would report the missing commit is
    never reached; no file is written. *)
Theorem showCommitDiff_missing_object (h : string) (w : world) :
  disk w !! object_path h = None ->
  showCommitDiff h w =
  (Throw SyntaxError,
   World (disk w)
     (trace w ++
        [console_log
           [Some (JStr ("Failed to read commit data " +:+
                        error_text (ENOENT (object_path h))))]])).
Proof.
  intros H. unfold showCommitDiff.
  rewrite (bind_run _ _ _ _ _ (getCommitData_missing h w H)).
  change (JSON_parse None) with (@Throw json SyntaxError).
  now rewrite bind_lift_throw.
Qed.

Lemma find_path_unmatched (es : list IndexEntry) (p : string) :
  (forall e', In e' es -> path e' <> p) ->
  find_path (map entry_json es) (Some (JStr p)) = Ok None.
Proof.
  induction es as [|e' es IH]; intros H; [reflexivity |].
  simpl map. unfold find_path; fold find_path. rewrite get_prop_entry_path.
  simpl strict_eq.
  assert (String.eqb (path e') p = false) as ->
    by (apply String.eqb_neq, H; now left).
  apply IH. intros e'' Hin. apply H. now right.
Qed.

Lemma find_path_matched (es : list IndexEntry) (e' : IndexEntry) (rest : list IndexEntry)
  (p : string) :
  (forall e0, In e0 es -> path e0 <> p) ->
  path e' = p ->
  find_path (map entry_json (es ++ e' :: rest)) (Some (JStr p)) = Ok (Some (entry_json e')).
Proof.
  induction es as [|e0 es IH]; intros H Hp.
  - simpl app. simpl map. unfold find_path; fold find_path.
    rewrite get_prop_entry_path. simpl strict_eq.
    now rewrite (proj2 (String.eqb_eq _ _) Hp).
  - simpl app. simpl map. unfold find_path; fold find_path.
    rewrite get_prop_entry_path. simpl strict_eq.
    assert (String.eqb (path e0) p = false) as ->
      by (apply String.eqb_neq, H; now left).
    apply IH; [| exact Hp]. intros e1 Hin. apply H. now right.
Qed.

Lemma getParentFileContent_unmatched (pc : Commit) (p : string) (w : world) :
  (forall e', In e' (files pc) -> path e' <> p) ->
  getParentFileContent (commit_json pc) (Some (JStr p)) w = (Ok None, w).
Proof.
  intros Hnew. unfold getParentFileContent.
  rewrite get_prop_commit_files. step. unfold array_find.
  rewrite find_path_unmatched by exact Hnew. step. destruct w; reflexivity.
Qed.

Lemma getParentFileContent_matched
  (pc : Commit) (before after : list IndexEntry) (e' : IndexEntry)
  (p old : string) (w : world) :
  files pc = before ++ e' :: after ->
  (forall e0, In e0 before -> path e0 <> p) ->
  path e' = p ->
  disk w !! object_path (hash e') = Some old ->
  getParentFileContent (commit_json pc) (Some (JStr p)) w = (Ok (Some old), w).
Proof.
  intros Hfiles Hbefore Hp Hblob. unfold getParentFileContent.
  rewrite get_prop_commit_files. step. unfold array_find.
  rewrite Hfiles, find_path_matched by assumption. step.
  change (truthy (Some (entry_json e'))) with true. cbv iota.
  rewrite get_prop_entry_hash. step.
  rewrite (bind_run _ _ _ _ _ (getFileContent_found (hash e') old _ Hblob)).
  destruct w; reflexivity.
Qed.

Lemma for_each_write_part (ps : list part) (w : world) :
  for_each ps write_part w = (Ok tt, World (disk w) (trace w ++ map rendered ps)).
Proof.
  revert w. induction ps as [|p ps IH]; intros w.
  - simpl. now rewrite app_nil_r, world_eta.
  - simpl for_each.
    assert (write_part p w = (Ok tt, World (disk w) (trace w ++ [rendered p]))) as Hp
      by (unfold write_part, rendered; destruct (tag p); reflexivity).
    rewrite (bind_run _ _ _ _ _ Hp), IH. simpl. now rewrite <- app_assoc.
Qed.

(** X14. When the parent commit lists the path, the first entry with
    that path gives the old text (later entries with the path are not
    looked at), and the segments of the diff between that text and the
    file's content are written in order after the heading. *)
Lemma show_file_matched_path
  (c pc : Commit) (e e' : IndexEntry) (before after : list IndexEntry)
  (ph ptext content old : string) (d : gmap string string) (tr : list event) :
  parent c = Some ph ->
  ph <> "" ->
  d !! object_path ph = Some ptext ->
  parse ptext = Some (commit_json pc) ->
  files pc = before ++ e' :: after ->
  (forall e0, In e0 before -> path e0 <> path e) ->
  path e' = path e ->
  d !! object_path (hash e) = Some content ->
  d !! object_path (hash e') = Some old ->
  old <> "undefined" ->
  show_file (commit_json c) (entry_json e) (World d tr) =
  (Ok tt,
   World d (tr ++ file_lines d e ++
            [console_log [Some (JStr (nl +:+ "Diff:"))]] ++
            map rendered (diffLines old content) ++ [console_log []])).
Proof.
  intros Hparent Hph Hpobj Hpparse Hfiles Hbefore Hpath Hblob Hold Hne.
  unfold show_file.
  rewrite get_prop_entry_path. step. step.
  rewrite get_prop_entry_hash. step.
  rewrite (bind_run _ _ _ _ _ (getFileContent_found (hash e) content (World d _) Hblob)).
  step. rewrite get_prop_commit_parent, Hparent. step.
  assert (truthy (Some (parent_json (Some ph))) = true) as ->
    by (simpl; apply negb_true_iff, String.eqb_neq, Hph).
  rewrite (bind_run _ _ _ _ _ (getCommitData_found ph ptext (World d _) Hpobj)).
  unfold JSON_parse. rewrite Hpparse. step. step.
  rewrite (bind_run _ _ _ _ _
             (getParentFileContent_matched pc before after e' (path e) old (World d _)
                Hfiles Hbefore Hpath Hold)).
  assert (differs_from_text_undefined (Some old) = true) as ->
    by (simpl; apply negb_true_iff, String.eqb_neq, Hne).
  step. change (diffLines_call (Some old) content) with (Ok (diffLines old content)).
  step. rewrite (bind_run _ _ _ _ _ (for_each_write_part _ _)).
  unfold emit, file_lines, blob. rewrite Hblob. simpl.
  now rewrite <- !app_assoc.
Qed.

(** C2: what the code does for a file whose path the parent commit does
    not list. The lookup in the parent yields [undefined], which differs
    from the text [undefined] it is compared with, so the diff branch is
    taken: the heading of the diff is printed and [diffLines] is called on
    [undefined]; the line "First Commit" is not printed. *)
Theorem show_file_unmatched_path
  (c pc : Commit) (e : IndexEntry) (ph ptext content : string)
  (d : gmap string string) (tr : list event) :
  parent c = Some ph ->
  ph <> "" ->
  d !! object_path ph = Some ptext ->
  parse ptext = Some (commit_json pc) ->
  (forall e', In e' (files pc) -> path e' <> path e) ->
  d !! object_path (hash e) = Some content ->
  show_file (commit_json c) (entry_json e) (World d tr) =
  (Throw TypeError,
   World d (tr ++ file_lines d e ++ [console_log [Some (JStr (nl +:+ "Diff:"))]])).
Proof.
  intros Hparent Hph Hpobj Hpparse Hnew Hblob.
  unfold show_file.
  rewrite get_prop_entry_path. step. step.
  rewrite get_prop_entry_hash. step.
  rewrite (bind_run _ _ _ _ _ (getFileContent_found (hash e) content (World d _) Hblob)).
  step. rewrite get_prop_commit_parent, Hparent. step.
  assert (truthy (Some (parent_json (Some ph))) = true) as ->
    by (simpl; apply negb_true_iff, String.eqb_neq, Hph).
  rewrite (bind_run _ _ _ _ _ (getCommitData_found ph ptext (World d _) Hpobj)).
  unfold JSON_parse. rewrite Hpparse. step. step.
  rewrite (bind_run _ _ _ _ _ (getParentFileContent_unmatched pc (path e) _ Hnew)).
  change (differs_from_text_undefined None) with true. cbv iota.
  step. change (diffLines_call None content) with (@Throw (list part) TypeError).
  rewrite bind_lift_throw.
  unfold file_lines, blob. rewrite Hblob. simpl.
  now rewrite <- !app_assoc.
Qed.


End RitFacts.

(** ** The statements on the recorded session *)

Section SessionFacts.
Import Session.

(** C7 as stated fails: the first commit of a freshly initialised
    repository is stored with the empty string as parent, not [null]. *)
Lemma first_commit_parent_not_null :
  let w := snd ((init ;;; commit t1 "first") empty) in
  exists fields,
    stored_commit (disk w) = Some (JObj fields) /\
    assoc "files" fields = Some (JArr []) /\
    assoc "parent" fields = Some (JStr "") /\
    assoc "parent" fields <> Some JNull.
Proof.
  eexists. split; [vm_compute; reflexivity |].
  split; [reflexivity |]. split; [reflexivity | discriminate].
Qed.

Lemma commit_empty_index_witness :
  let w := snd (init empty) in
  disk w !! indexPath = Some "[]" /\
  parse "[]" = Some (JArr []) /\
  fst (commit t1 "first" w) = Ok tt.
Proof.
  split; [reflexivity |]. split; [reflexivity |].
  apply (commit_empty_index t1 "first" "[]" (snd (init empty)));
    reflexivity.
Defined.

Lemma showCommitDiff_missing_object_witness :
  disk repo2 !! object_path "deadbeef" = None /\
  fst (showCommitDiff "deadbeef" repo2) = Throw SyntaxError /\
  disk (snd (showCommitDiff "deadbeef" repo2)) = disk repo2.
Proof.
  assert (disk repo2 !! object_path "deadbeef" = None) as H
    by (vm_compute; reflexivity).
  split; [exact H |].
  rewrite (showCommitDiff_missing_object "deadbeef" repo2 H).
  split; reflexivity.
Defined.


Lemma commit_effects_witness :
  let w := snd (init empty) in
  disk w !! indexPath = Some "[]" /\
  parse "[]" = Some (JArr []) /\
  fst (commit t1 "first" w) = Ok tt.
Proof.
  intros w.
  assert (disk w !! indexPath = Some "[]") as H1 by reflexivity.
  assert (parse "[]" = Some (JArr [])) as H2 by reflexivity.
  destruct (commit_effects t1 "first" "[]" (JArr []) w H1 H2) as (Hrun & _).
  split; [exact H1 |]. split; [exact H2 |]. rewrite Hrun. reflexivity.
Defined.

Lemma add_then_getFileContent_witness :
  let w := save "a.txt" ("hello" +:+ nl) (snd (init empty)) in
  disk w !! "a.txt" = Some ("hello" +:+ nl) /\
  getFileContent (Some (JStr (hashObject ("hello" +:+ nl)))) (snd (add "a.txt" w)) =
    (Ok ("hello" +:+ nl), snd (add "a.txt" w)).
Proof.
  intros w.
  assert (disk w !! "a.txt" = Some ("hello" +:+ nl)) as H by reflexivity.
  split; [exact H |].
  exact (add_then_getFileContent "a.txt" ("hello" +:+ nl) w H).
Defined.

Lemma updateStagingArea_appends_witness :
  let first := entry_json {| path := "a.txt"; hash := hashObject ("hello" +:+ nl) |} in
  let again := JObj [("path", JStr "a.txt"); ("hash", JStr "0123")] in
  disk staged !! indexPath = Some (JSON_stringify (JArr [first])) /\
  parse (JSON_stringify (JArr [first])) = Some (JArr [first]) /\
  plain (JArr [first]) = true /\
  fst (updateStagingArea "a.txt" "0123" staged) = Ok tt /\
  JSON_parse (disk (snd (updateStagingArea "a.txt" "0123" staged)) !! indexPath) =
    Ok (JArr [first; again]).
Proof.
  intros first again.
  assert (disk staged !! indexPath = Some (JSON_stringify (JArr [first]))) as H1
    by (vm_compute; reflexivity).
  assert (parse (JSON_stringify (JArr [first])) = Some (JArr [first])) as H2
    by (vm_compute; reflexivity).
  assert (plain (JArr [first]) = true) as H3 by reflexivity.
  destruct (updateStagingArea_appends "a.txt" "0123" _ [first] staged H1 H2)
    as [Hrun Hread].
  split; [exact H1 |]. split; [exact H2 |]. split; [exact H3 |].
  rewrite Hrun. split; [reflexivity |].
  cbn [snd disk]. rewrite lookup_insert_eq. exact (Hread H3).
Defined.

Lemma chain_repo2 :
  chain (disk repo2) (Some (head_value (disk repo2))) [c2; c1].
Proof.
  assert (head_value (disk repo2) = JStr (commit_hash c2)) as ->
    by (vm_compute; reflexivity).
  apply (chain_link _ (commit_hash c2) (serialize c2) c2 [c1]).
  - vm_compute; discriminate.
  - vm_compute; reflexivity.
  - apply parse_serialize.
  - apply (chain_link _ (commit_hash c1) (serialize c1) c1 []).
    + vm_compute; discriminate.
    + vm_compute; reflexivity.
    + apply parse_serialize.
    + apply chain_root. reflexivity.
Defined.

Lemma log_walks_chain_witness :
  chain (disk repo2) (Some (head_value (disk repo2))) [c2; c1] /\
  length [c2; c1] <= 2 /\
  log 2 repo2 = (Ok tt, World (disk repo2) (log_record c2 ++ log_record c1)).
Proof.
  split; [exact chain_repo2 |]. split; [apply le_n |].
  exact (log_walks_chain repo2 [c2; c1] 2 chain_repo2 (le_n 2)).
Defined.

Lemma walk_repo2 :
  Laws.walk (disk repo2) (Some (head_value (disk repo2))) [c2]
    (Some (JStr (commit_hash c1))).
Proof.
  assert (head_value (disk repo2) = JStr (commit_hash c2)) as ->
    by (vm_compute; reflexivity).
  apply (Laws.walk_link _ (commit_hash c2) (serialize c2) c2 [] _).
  - vm_compute; discriminate.
  - vm_compute; reflexivity.
  - apply parse_serialize.
  - change (Some (parent_json (parent c2))) with (Some (JStr (commit_hash c1))).
    apply Laws.walk_here.
Qed.

Lemma empty_parent_marks_root_witness :
  disk (snd (init empty)) !! headPath = Some "" /\
  stored_commit (disk (snd (commit t1 "first" staged))) = Some (commit_json c1) /\
  parent c1 = Some "" /\
  log (length [c2] + 1) (World (disk repo2) []) =
    (Ok tt, World (disk repo2) ([] ++ concat (map log_record ([c2] ++ [c1])))) /\
  showCommitDiff (commit_hash c1) (World (disk repo2) []) =
    (Ok tt, World (disk repo2)
              ([] ++ console_log [Some (commit_json c1)]
                  :: concat (map (file_lines (disk repo2)) (files c1)))).
Proof.
  destruct empty_parent_marks_root as (Hinit & _ & Hcommit & Hroot).
  assert (commit_hash c1 <> "") as Hh by (vm_compute; discriminate).
  assert (disk repo2 !! object_path (commit_hash c1) = Some (serialize c1)) as Hobj
    by (vm_compute; reflexivity).
  assert (Forall (fun e => is_Some (disk repo2 !! object_path (hash e))) (files c1))
    as Hblobs.
  { constructor; [| constructor]. exists ("hello" +:+ nl). vm_compute; reflexivity. }
  assert (disk staged !! headPath = Some "") as Hhead by (vm_compute; reflexivity).
  assert (disk staged !! indexPath =
          Some (JSON_stringify (JArr (map entry_json (files c1))))) as Hidx
    by (vm_compute; reflexivity).
  destruct (Hroot (disk repo2) (commit_hash c1) (serialize c1) c1
              (or_introl eq_refl) Hh Hobj (parse_serialize c1)) as [Hlog Hshow].
  split; [exact (Hinit empty eq_refl eq_refl) |].
  split; [exact (Hcommit t1 "first" _ (files c1) staged Hhead Hidx
                   (parse_entries (files c1))) |].
  split; [reflexivity |].
  split; [exact (Hlog [c2] 0 [] walk_repo2) | exact (Hshow [] Hblobs)].
Defined.

Lemma show_file_unmatched_path_witness :
  let e := {| path := "b.txt"; hash := hashObject ("new" +:+ nl) |} in
  parent c3 = Some (commit_hash c2) /\
  disk repo3 !! object_path (commit_hash c2) = Some (serialize c2) /\
  (forall e', In e' (files c2) -> path e' <> path e) /\
  show_file (commit_json c3) (entry_json e) (World (disk repo3) []) =
    (Throw TypeError,
     World (disk repo3)
       (file_lines (disk repo3) e ++ [console_log [Some (JStr (nl +:+ "Diff:"))]])) /\
  fst (showCommitDiff (head_of repo3) repo3) = Throw TypeError.
Proof.
  intros e.
  assert (commit_hash c2 <> "") as Hh by (vm_compute; discriminate).
  assert (disk repo3 !! object_path (commit_hash c2) = Some (serialize c2)) as Hobj
    by (vm_compute; reflexivity).
  assert (forall e', In e' (files c2) -> path e' <> path e) as Hnew.
  { intros e' [<- | []]. discriminate. }
  assert (disk repo3 !! object_path (hash e) = Some ("new" +:+ nl)) as Hblob
    by (vm_compute; reflexivity).
  split; [reflexivity |]. split; [exact Hobj |]. split; [exact Hnew |].
  split.
  - exact (show_file_unmatched_path c3 c2 e (commit_hash c2) (serialize c2)
             ("new" +:+ nl) (disk repo3) [] eq_refl Hh Hobj (parse_serialize c2) Hnew Hblob).
  - vm_compute; reflexivity.
Defined.

(** Scenario 1 of the specification: the second commit of [a.txt] shows
    one equal segment and one added segment. *)
Example scenario_1 :
  diffLines ("hello" +:+ nl) ("hello" +:+ nl +:+ "world" +:+ nl) =
    [Part equal ("hello" +:+ nl); Part added ("world" +:+ nl)] /\
  trace (snd (showCommitDiff (head_of repo2) repo2)) =
    [console_log [Some (commit_json c2)];
     console_log [Some (JStr "File : a.txt")];
     console_log [Some (JStr ("File content : hello" +:+ nl +:+ "world" +:+ nl))];
     console_log [Some (JStr (nl +:+ "Diff:"))];
     stdout_write grey ("hello" +:+ nl);
     stdout_write green ("++world" +:+ nl);
     console_log []].
Proof. split; vm_compute; reflexivity. Qed.

End SessionFacts.

(** * Further properties of the class *)

Import Laws.

(** ** What the operations leave on disk *)

Section DiskFacts.

Lemma preserves_ret {A} I (a : A) : preserves I (ret a).
Proof. intros w H. exact H. Qed.

Lemma preserves_lift {A} I (r : outcome A) : preserves I (lift r).
Proof. intros w H. exact H. Qed.

Lemma preserves_emit I (e : event) : preserves I (emit e).
Proof. intros w H. exact H. Qed.

Lemma preserves_log_text I (s : string) : preserves I (log_text s).
Proof. intros w H. exact H. Qed.

Lemma preserves_readFile I (p : string) : preserves I (readFile p).
Proof. intros w H. unfold readFile. now destruct (disk w !! p). Qed.

Lemma preserves_bind {A B} I (m : M A) (k : A -> M B) :
  preserves I m -> (forall a, preserves I (k a)) -> preserves I (bind m k).
Proof.
  intros Hm Hk w H. specialize (Hm w H). unfold bind.
  destruct (m w) as [[a | e |] w1]; simpl in *; [| exact Hm | exact Hm].
  now apply Hk.
Qed.

Lemma preserves_try_catch {A} I (m : M A) (handler : error -> M A) :
  preserves I m -> (forall e, preserves I (handler e)) -> preserves I (try_catch m handler).
Proof.
  intros Hm Hh w H. specialize (Hm w H). unfold try_catch.
  destruct (m w) as [[a | e |] w1]; simpl in *; [exact Hm | | exact Hm].
  now apply Hh.
Qed.

Lemma preserves_for_each {A} I (l : list A) (body : A -> M unit) :
  (forall x, preserves I (body x)) -> preserves I (for_each l body).
Proof.
  intros Hb. induction l as [|x l IH]; simpl.
  - apply preserves_ret.
  - apply preserves_bind; [apply Hb | intros _; exact IH].
Qed.

Lemma preserves_writeFile I (p data : string) :
  (forall d, I d -> I (<[p := data]> d)) -> preserves I (writeFile p data).
Proof. intros Hw w H. simpl. now apply Hw. Qed.

Lemma preserves_writeFile_wx I (p data : string) :
  (forall d, I d -> I (<[p := data]> d)) -> preserves I (writeFile_wx p data).
Proof.
  intros Hw w H. unfold writeFile_wx. destruct (disk w !! p); [exact H |].
  simpl. now apply Hw.
Qed.

Lemma preserves_write_part I (p : part) : preserves I (write_part p).
Proof. unfold write_part. destruct (tag p); apply preserves_emit. Qed.

Lemma preserves_mkdir_recursive I (path : string) : preserves I (mkdir_recursive path).
Proof.
  intros w H. unfold mkdir_recursive.
  destruct (existsb _ _); [exact H |]. destruct (is_file _ _); exact H.
Qed.

Ltac keep :=
  repeat first
    [ apply preserves_write_part | apply preserves_mkdir_recursive | apply preserves_ret | apply preserves_lift | apply preserves_log_text
    | apply preserves_emit | apply preserves_readFile
    | apply preserves_bind; [| intros ?]
    | apply preserves_try_catch; [| intros ?]
    | apply preserves_for_each; intros ?
    | match goal with
      | |- preserves _ (if ?b then _ else _) => destruct b
      | |- preserves _ (match ?x with _ => _ end) => destruct x
      end ].

Lemma preserves_getCurrentHead I : preserves I getCurrentHead.
Proof. unfold getCurrentHead. keep. Qed.

Lemma preserves_getCommitData I (h : jsval) : preserves I (getCommitData h).
Proof. unfold getCommitData. keep. Qed.

Lemma preserves_getFileContent I (h : jsval) : preserves I (getFileContent h).
Proof. unfold getFileContent. keep. Qed.

Lemma preserves_getParentFileContent I (pc : json) (p : jsval) :
  preserves I (getParentFileContent pc p).
Proof. unfold getParentFileContent. keep. Qed.

Lemma preserves_show_file I (commitData file : json) :
  preserves I (show_file commitData file).
Proof.
  unfold show_file. keep.
Qed.

Lemma preserves_showCommitDiff I (h : string) : preserves I (showCommitDiff h).
Proof.
  unfold showCommitDiff. keep.
Qed.

Lemma preserves_log_loop I (fuel : nat) (cur : jsval) : preserves I (log_loop fuel cur).
Proof.
  revert cur. induction fuel as [|fuel IH]; intros cur; simpl.
  - destruct (truthy cur); [apply preserves_lift | apply preserves_ret].
  - destruct (truthy cur); [| apply preserves_ret]. keep. apply IH.
Qed.

Lemma preserves_log I (fuel : nat) : preserves I (log fuel).
Proof.
  unfold log. apply preserves_bind; [apply preserves_getCurrentHead |].
  intros a. apply preserves_log_loop.
Qed.

Lemma preserves_bind_lift_ok {A B} I (x : A) (k : A -> M B) :
  preserves I (k x) -> preserves I (bind (lift (Ok x)) k).
Proof. intros Hk w H. now apply Hk. Qed.

Lemma preserves_init I : stable I -> preserves I init.
Proof.
  intros (Hhead & Hindex & _). unfold init. keep.
  - apply preserves_writeFile_wx. intros d. apply Hhead.
  - apply preserves_writeFile_wx. intros d. apply Hindex.
Qed.

Lemma preserves_updateStagingArea I (filePath fileHash : string) :
  stable I -> preserves I (updateStagingArea filePath fileHash).
Proof.
  intros (_ & Hindex & _). unfold updateStagingArea. keep.
  apply preserves_writeFile. intros d. apply Hindex.
Qed.

Lemma preserves_add I (fileToBeAdded : string) :
  stable I -> preserves I (add fileToBeAdded).
Proof.
  intros HI. pose proof HI as (_ & _ & Hobj). unfold add.
  apply preserves_bind; [apply preserves_readFile | intros fileData].
  apply preserves_bind; [apply preserves_log_text | intros _].
  apply preserves_bind_lift_ok.
  apply preserves_bind; [apply preserves_writeFile; intros d; apply Hobj | intros _].
  apply preserves_bind; [now apply preserves_updateStagingArea | intros _].
  apply preserves_log_text.
Qed.

Lemma preserves_commit I (now message : string) :
  stable I -> preserves I (commit now message).
Proof.
  intros (Hhead & Hindex & Hobj). unfold commit.
  apply preserves_bind; [apply preserves_readFile | intros text].
  apply preserves_bind; [apply preserves_lift | intros index].
  apply preserves_bind; [apply preserves_getCurrentHead | intros parentCommit].
  cbv zeta. apply preserves_bind_lift_ok.
  apply preserves_bind; [apply preserves_writeFile; intros d; apply Hobj | intros _].
  apply preserves_bind; [apply preserves_writeFile; intros d; apply Hhead | intros _].
  apply preserves_bind; [apply preserves_writeFile; intros d; apply Hindex | intros _].
  apply preserves_log_text.
Qed.

Lemma stable_dom (d0 : gmap string string) : stable (fun d => dom d0 ⊆ dom d).
Proof.
  repeat split; intros d data H; rewrite dom_insert_L; set_solver.
Qed.

Lemma stable_lookup (k : string) (v : option string) :
  outside_repository k -> stable (fun d => d !! k = v).
Proof.
  intros (Hh & Hi & Ho). repeat split; intros d data H.
  - now rewrite lookup_insert_ne by congruence.
  - now rewrite lookup_insert_ne by congruence.
  - rewrite lookup_insert_ne; [exact H |]. intros E. exact (Ho _ (eq_sym E)).
Qed.

Lemma stable_content_addressed : stable content_addressed.
Proof.
  repeat split; intros d data H h text Hl.
  - rewrite lookup_insert_ne in Hl by (apply not_eq_sym, object_path_not_head).
    now apply H.
  - rewrite lookup_insert_ne in Hl by (apply not_eq_sym, object_path_not_index).
    now apply H.
  - destruct (decide (object_path (hashObject data) = object_path h)) as [E | N].
    + rewrite E, lookup_insert_eq in Hl. injection Hl as <-. exact E.
    + rewrite lookup_insert_ne in Hl by exact N. now apply H.
Qed.

(** X1. [log] and [showCommitDiff] never change a file, whatever they
    find and however they end. *)
Theorem log_and_show_read_only (fuel : nat) (commitHash : string) (w : world) :
  disk (snd (log fuel w)) = disk w /\
  disk (snd (showCommitDiff commitHash w)) = disk w.
Proof.
  split.
  - exact (preserves_log (fun d => d = disk w) fuel w eq_refl).
  - exact (preserves_showCommitDiff (fun d => d = disk w) commitHash w eq_refl).
Qed.

(** X2. [init], [add] and [commit] never remove a file: every path that
    exists before the call exists after it, also when the call fails. *)
Theorem no_file_removed (fileToBeAdded now message : string) (w : world) :
  dom (disk w) ⊆ dom (disk (snd (init w))) /\
  dom (disk w) ⊆ dom (disk (snd (add fileToBeAdded w))) /\
  dom (disk w) ⊆ dom (disk (snd (commit now message w))).
Proof.
  pose proof (stable_dom (disk w)) as HI.
  split; [| split].
  - now apply (preserves_init _ HI w).
  - now apply (preserves_add _ fileToBeAdded HI w).
  - now apply (preserves_commit _ now message HI w).
Qed.

(** X3. [init], [add] and [commit] never touch the working tree: a path
    that is neither HEAD, nor the index, nor an object holds the same
    content (or is as absent) after the call as before. *)
Theorem working_tree_untouched (k fileToBeAdded now message : string) (w : world) :
  outside_repository k ->
  disk (snd (init w)) !! k = disk w !! k /\
  disk (snd (add fileToBeAdded w)) !! k = disk w !! k /\
  disk (snd (commit now message w)) !! k = disk w !! k.
Proof.
  intros Hk. pose proof (stable_lookup k (disk w !! k) Hk) as HI.
  split; [| split].
  - now apply (preserves_init _ HI w).
  - now apply (preserves_add _ fileToBeAdded HI w).
  - now apply (preserves_commit _ now message HI w).
Qed.

(** X4. The object store stays content-addressed: if every object is
    stored under the digest of its text, it still is after [init], after
    [add] and after [commit], whether they succeed or fail. *)
Theorem content_addressing_kept (fileToBeAdded now message : string) (w : world) :
  content_addressed (disk w) ->
  content_addressed (disk (snd (init w))) /\
  content_addressed (disk (snd (add fileToBeAdded w))) /\
  content_addressed (disk (snd (commit now message w))).
Proof.
  intros H. pose proof stable_content_addressed as HI.
  split; [| split].
  - now apply (preserves_init _ HI w).
  - now apply (preserves_add _ fileToBeAdded HI w).
  - now apply (preserves_commit _ now message HI w).
Qed.

End DiskFacts.

(** ** Errors and edges of [init], [add] and [commit] *)

Section WriterFacts.

(** X5. When HEAD exists, [init] writes nothing: it makes the
    directory and reports that the repository exists; it does so also
    when the index file is missing, which it does not create. *)
Theorem init_existing_head (w : world) :
  is_Some (disk w !! headPath) ->
  init w =
  (mkdir_recursive objectPath ;;; log_text "Already exists .rit directory") w.
Proof.
  intros [h Hh]. unfold bind at 1.
  destruct (mkdir_recursive_cases objectPath w) as [Hmk | [e Hmk]].
  - now rewrite (init_run w Hmk), Hh, Hmk.
  - now rewrite (init_blocked e w Hmk), Hmk.
Qed.

Lemma mkdir_recursive_same_files (w w' : world) :
  disk w' !! repoPath = disk w !! repoPath ->
  disk w' !! objectPath = disk w !! objectPath ->
  mkdir_recursive objectPath w = (Ok tt, w) ->
  mkdir_recursive objectPath w' = (Ok tt, w').
Proof.
  intros Hrepo Hobj. rewrite !mkdir_recursive_objectPath, Hrepo, Hobj.
  destruct (disk w !! repoPath); [discriminate |].
  destruct (disk w !! objectPath); [discriminate | reflexivity].
Qed.

(** X6. Running [init] again ends as the first run did and changes no
    file: [init] is idempotent on the disk, whether the directory can be
    made or not. *)
Theorem init_idempotent (w : world) :
  fst (init (snd (init w))) = fst (init w) /\
  disk (snd (init (snd (init w)))) = disk (snd (init w)).
Proof.
  destruct (mkdir_recursive_cases objectPath w) as [Hmk | [e Hmk]].
  - assert (fst (init w) = Ok tt) as Hok.
    { rewrite (init_run w Hmk).
      destruct (disk w !! headPath); [reflexivity |].
      destruct (disk w !! indexPath); reflexivity. }
    assert (is_Some (disk (snd (init w)) !! headPath)) as [h Hh].
    { destruct (disk w !! headPath) as [h|] eqn:Hhead.
      - rewrite (init_run w Hmk), Hhead. cbn [snd disk]. rewrite Hhead. eauto.
      - rewrite (init_leaves_head w Hhead Hok). eauto. }
    assert (mkdir_recursive objectPath (snd (init w)) = (Ok tt, snd (init w))) as Hmk'.
    { apply (mkdir_recursive_same_files w); [| | exact Hmk];
        rewrite (init_run w Hmk);
        destruct (disk w !! headPath); [reflexivity | | reflexivity |];
        destruct (disk w !! indexPath); cbn [snd disk];
        repeat (rewrite lookup_insert_ne by discriminate); reflexivity. }
    rewrite (init_run (snd (init w)) Hmk'), Hh, Hok. split; reflexivity.
  - rewrite (init_blocked e w Hmk). cbn [snd].
    rewrite (init_blocked e w Hmk). split; reflexivity.
Qed.

(** X7. [add] of a file that does not exist throws the read error and
    has no effect: nothing is written, nothing is printed. *)
Theorem add_missing_file (fileToBeAdded : string) (w : world) :
  disk w !! fileToBeAdded = None ->
  add fileToBeAdded w = (Throw (ENOENT fileToBeAdded), w).
Proof. intros H. now rewrite add_run, H. Qed.





End WriterFacts.

(** ** [log] on empty, broken and cyclic histories *)

Section LogFacts.

(** X10. With an empty or missing HEAD, [log] prints nothing and returns,
    whatever the fuel. *)
Theorem log_without_head (fuel : nat) (w : world) :
  disk w !! headPath = Some "" \/ disk w !! headPath = None ->
  log fuel w = (Ok tt, w).
Proof.
  intros H. unfold log, bind. rewrite getCurrentHead_run.
  apply log_loop_stop. unfold head_value. destruct H as [-> | ->]; reflexivity.
Qed.

Lemma log_loop_short (d : gmap string string) (cur next : jsval) (cs : list Commit) :
  walk d cur cs next ->
  forall (fuel : nat) (tr : list event),
    fuel < length cs ->
    fst (log_loop fuel cur (World d tr)) = OutOfFuel.
Proof.
  induction 1 as [cur | h text c rest next Hh Hobj Hparse Hrest IH]; intros fuel tr Hfuel.
  - simpl in Hfuel. lia.
  - assert (truthy (Some (JStr h)) = true) as Ht
      by (simpl; apply negb_true_iff, String.eqb_neq, Hh).
    destruct fuel as [|fuel].
    + change (log_loop 0 (Some (JStr h)))
        with (if truthy (Some (JStr h)) then @out_of_fuel unit else ret tt).
      now rewrite Ht.
    + rewrite (log_loop_step _ h text c (World d tr) Hh Hobj Hparse).
      apply IH. simpl in Hfuel. lia.
Qed.

Lemma log_loop_missing (fuel : nat) (h : string) (w : world) :
  h <> "" ->
  disk w !! object_path h = None ->
  log_loop (S fuel) (Some (JStr h)) w = (Throw (ENOENT (object_path h)), w).
Proof.
  intros Hh Hobj.
  assert (String.eqb h "" = false) as Hne by (apply String.eqb_neq, Hh).
  cbn [log_loop truthy]. rewrite Hne. cbn [negb].
  change (path_join objectPath (Some (JStr h))) with (@Ok string (object_path h)).
  rewrite bind_lift_ok. unfold bind, readFile. fold (object_path h).
  now rewrite Hobj.
Qed.

(** X11. When the parent links from HEAD lead, after the commits [cs], to
    a hash without an object, [log] prints the records of [cs] and then
    throws the read error of the missing object; the files are
    unchanged. *)
Theorem log_dangling_link
  (d : gmap string string) (cs : list Commit) (h : string)
  (fuel : nat) (tr : list event) :
  walk d (Some (head_value d)) cs (Some (JStr h)) ->
  h <> "" ->
  d !! object_path h = None ->
  log (length cs + S fuel) (World d tr) =
  (Throw (ENOENT (object_path h)), World d (tr ++ concat (map log_record cs))).
Proof.
  intros Hwalk Hh Hobj. unfold log, bind. rewrite getCurrentHead_run. cbn [disk].
  rewrite (log_loop_walk d _ _ cs Hwalk).
  now apply log_loop_missing.
Qed.

Lemma log_loop_cycle (d : gmap string string) (cur : jsval) (cs : list Commit) :
  walk d cur cs cur ->
  cs <> [] ->
  forall (fuel : nat) (tr : list event),
    fst (log_loop fuel cur (World d tr)) = OutOfFuel.
Proof.
  intros Hwalk Hne fuel.
  induction fuel as [fuel IH] using lt_wf_ind. intros tr.
  destruct (Nat.lt_ge_cases fuel (length cs)) as [Hlt | Hge].
  - now apply (log_loop_short d cur cur cs).
  - replace fuel with (length cs + (fuel - length cs)) by lia.
    rewrite (log_loop_walk d cur cur cs Hwalk).
    apply IH. destruct cs; [congruence | simpl in *; lia].
Qed.

(** X12. [log] does not detect cycles: when the parent links from HEAD
    lead back to HEAD, the loop never ends, so no amount of fuel lets
    [log] return. *)
Theorem log_cycle_diverges
  (d : gmap string string) (cs : list Commit) (fuel : nat) (tr : list event) :
  walk d (Some (head_value d)) cs (Some (head_value d)) ->
  cs <> [] ->
  fst (log fuel (World d tr)) = OutOfFuel.
Proof.
  intros Hwalk Hne. unfold log, bind. rewrite getCurrentHead_run. cbn [disk].
  now apply (log_loop_cycle d _ cs).
Qed.

End LogFacts.

(** ** [showCommitDiff] on objects that are not what it expects *)

Section ShowFacts.

Ltac advance :=
  first [ rewrite bind_lift_ok | rewrite bind_lift_throw
        | rewrite bind_log_text | rewrite bind_emit ];
  cbv beta; cbn [disk trace].

(** X13. For an object that exists but is not a commit: if its text is
    not JSON, [showCommitDiff] throws a SyntaxError and prints nothing;
    if it parses to a falsy value ([null], [false], [0] or the empty
    string), it prints "commit data not found" and returns. *)
Theorem showCommitDiff_not_a_commit (h text : string) (w : world) :
  disk w !! object_path h = Some text ->
  (parse text = None -> showCommitDiff h w = (Throw SyntaxError, w)) /\
  (forall v, parse text = Some v -> truthy (Some v) = false ->
     showCommitDiff h w =
     (Ok tt, World (disk w)
               (trace w ++ [console_log [Some (JStr "commit data not found")]]))).
Proof.
  intros Hobj. split.
  - intros Hp. unfold showCommitDiff.
    rewrite (bind_run _ _ _ _ _ (getCommitData_found h text w Hobj)).
    unfold JSON_parse. rewrite Hp. now rewrite bind_lift_throw.
  - intros v Hp Hv. unfold showCommitDiff.
    rewrite (bind_run _ _ _ _ _ (getCommitData_found h text w Hobj)).
    unfold JSON_parse. rewrite Hp, bind_lift_ok, Hv. reflexivity.
Qed.

(** X24. For an object that parses to a truthy value without a list of
    files (a blob holding JSON, for one): [showCommitDiff] prints the
    value and then throws the TypeError of iterating over it. *)
Theorem showCommitDiff_without_files (h text : string) (v : json) (w : world) :
  disk w !! object_path h = Some text ->
  parse text = Some v ->
  truthy (Some v) = true ->
  (forall fields, v = JObj fields -> iterate (assoc "files" fields) = Throw TypeError) ->
  showCommitDiff h w =
  (Throw TypeError, World (disk w) (trace w ++ [console_log [Some v]])).
Proof.
  intros Hobj Hp Hv Hfiles. unfold showCommitDiff.
  rewrite (bind_run _ _ _ _ _ (getCommitData_found h text w Hobj)).
  unfold JSON_parse. rewrite Hp, bind_lift_ok, Hv. cbn [negb].
  rewrite bind_emit.
  assert (exists files, get_prop (Some v) "files" = Ok files /\
                        iterate files = Throw TypeError) as (files & -> & Hit).
  { destruct v as [| b | l | s | items | fields]; try discriminate;
      try (exists None; split; reflexivity).
    exists (assoc "files" fields). split; [reflexivity | now apply Hfiles]. }
  rewrite bind_lift_ok, Hit. now rewrite bind_lift_throw.
Qed.

(** X15. When the parent commit lists the path and the text stored for
    it is the word [undefined], no diff is made and the line
    "First Commit" is printed, although the file is not new. *)
Theorem show_file_parent_text_undefined
  (c pc : Commit) (e e' : IndexEntry) (before after : list IndexEntry)
  (ph ptext content : string) (d : gmap string string) (tr : list event) :
  parent c = Some ph ->
  ph <> "" ->
  d !! object_path ph = Some ptext ->
  parse ptext = Some (commit_json pc) ->
  files pc = before ++ e' :: after ->
  (forall e0, In e0 before -> path e0 <> path e) ->
  path e' = path e ->
  d !! object_path (hash e) = Some content ->
  d !! object_path (hash e') = Some "undefined" ->
  show_file (commit_json c) (entry_json e) (World d tr) =
  (Ok tt,
   World d (tr ++ file_lines d e ++ [console_log [Some (JStr "First Commit")]])).
Proof.
  intros Hparent Hph Hpobj Hpparse Hfiles Hbefore Hpath Hblob Hold.
  unfold show_file.
  rewrite get_prop_entry_path. advance. advance.
  rewrite get_prop_entry_hash. advance.
  rewrite (bind_run _ _ _ _ _ (getFileContent_found (hash e) content (World d _) Hblob)).
  advance. rewrite get_prop_commit_parent, Hparent. advance.
  assert (truthy (Some (parent_json (Some ph))) = true) as ->
    by (simpl; apply negb_true_iff, String.eqb_neq, Hph).
  rewrite (bind_run _ _ _ _ _ (getCommitData_found ph ptext (World d _) Hpobj)).
  unfold JSON_parse. rewrite Hpparse. advance. advance.
  rewrite (bind_run _ _ _ _ _
             (getParentFileContent_matched pc before after e' (path e) "undefined"
                (World d _) Hfiles Hbefore Hpath Hold)).
  change (differs_from_text_undefined (Some "undefined")) with false. cbv iota.
  unfold log_text, emit, file_lines, blob. rewrite Hblob. cbn [disk trace default].
  now rewrite <- !app_assoc.
Qed.

(** X16. When the commit names a parent whose object is missing,
    [showCommitDiff] prints the file and its content, logs the failed
    read, and then throws the SyntaxError of [JSON.parse(undefined)]. *)
Theorem show_file_dangling_parent
  (c : Commit) (e : IndexEntry) (ph content : string)
  (d : gmap string string) (tr : list event) :
  parent c = Some ph ->
  ph <> "" ->
  d !! object_path ph = None ->
  d !! object_path (hash e) = Some content ->
  show_file (commit_json c) (entry_json e) (World d tr) =
  (Throw SyntaxError,
   World d (tr ++ file_lines d e ++
            [console_log
               [Some (JStr ("Failed to read commit data " +:+
                            error_text (ENOENT (object_path ph))))]])).
Proof.
  intros Hparent Hph Hpobj Hblob.
  unfold show_file.
  rewrite get_prop_entry_path. advance. advance.
  rewrite get_prop_entry_hash. advance.
  rewrite (bind_run _ _ _ _ _ (getFileContent_found (hash e) content (World d _) Hblob)).
  advance. rewrite get_prop_commit_parent, Hparent. advance.
  assert (truthy (Some (parent_json (Some ph))) = true) as ->
    by (simpl; apply negb_true_iff, String.eqb_neq, Hph).
  rewrite (bind_run _ _ _ _ _ (getCommitData_missing ph (World d _) Hpobj)).
  change (JSON_parse None) with (@Throw json SyntaxError).
  rewrite bind_lift_throw.
  unfold file_lines, blob. rewrite Hblob. cbn [disk trace default].
  now rewrite <- !app_assoc.
Qed.

Lemma getFileContent_missing (h : string) (w : world) :
  disk w !! object_path h = None ->
  getFileContent (Some (JStr h)) w = (Throw (ENOENT (object_path h)), w).
Proof.
  intros H. unfold getFileContent, bind, lift, path_join, readFile.
  fold (object_path h). now rewrite H.
Qed.

(** X17. When the blob of a listed file is missing, [showCommitDiff]
    prints the path and throws the read error of the blob. *)
Theorem show_file_missing_blob
  (commitData : json) (e : IndexEntry) (d : gmap string string) (tr : list event) :
  d !! object_path (hash e) = None ->
  show_file commitData (entry_json e) (World d tr) =
  (Throw (ENOENT (object_path (hash e))),
   World d (tr ++ [console_log [Some (JStr ("File : " +:+ path e))]])).
Proof.
  intros Hblob. unfold show_file.
  rewrite get_prop_entry_path. advance. advance.
  rewrite get_prop_entry_hash. advance.
  now rewrite (bind_throw _ _ _ _ _ (getFileContent_missing (hash e) (World d _) Hblob)).
Qed.

End ShowFacts.

(** ** The digest as a file name, and sequences of calls *)

Section ComposeFacts.

Lemma hex_length (n : nat) (x : Z) : String.length (Sha1.hex n x) = n.
Proof. induction n as [|n IH]; simpl; [reflexivity | now rewrite IH]. Qed.

Lemma hex_digit_lower (v : Z) :
  (0 <= v < 16)%Z -> is_lower_hex (Sha1.hex_digit v) = true.
Proof.
  intros Hv.
  assert (v = 0 \/ v = 1 \/ v = 2 \/ v = 3 \/ v = 4 \/ v = 5 \/ v = 6 \/ v = 7 \/
          v = 8 \/ v = 9 \/ v = 10 \/ v = 11 \/ v = 12 \/ v = 13 \/ v = 14 \/
          v = 15)%Z as H by lia.
  repeat (destruct H as [-> | H]; [reflexivity |]). subst. reflexivity.
Qed.

Lemma hex_lower (n : nat) (x : Z) : all_chars is_lower_hex (Sha1.hex n x) = true.
Proof.
  induction n as [|n IH]; [reflexivity |].
  cbn [Sha1.hex all_chars]. rewrite IH, hex_digit_lower; [reflexivity |].
  apply Z.mod_pos_bound. reflexivity.
Qed.

Lemma hashObject_length (content : string) : String.length (hashObject content) = 40.
Proof. unfold hashObject, Sha1.sha1_hex. apply hex_length. Qed.

Lemma hashObject_nonempty (content : string) : hashObject content <> "".
Proof.
  intros H. pose proof (hashObject_length content) as Hl. rewrite H in Hl. discriminate.
Qed.

Lemma object_path_nonempty (h : string) :
  h <> "" -> object_path h = objectPath +:+ "/" +:+ h.
Proof.
  intros H. unfold object_path, join.
  now rewrite (proj2 (String.eqb_neq h "") H).
Qed.

(** X19. [hashObject] returns forty lower-case hexadecimal digits, so
    the name of an object is never empty and its file is
    [.rit/objects/<digest>]. *)
Theorem hashObject_hex (content : string) :
  String.length (hashObject content) = 40 /\
  all_chars is_lower_hex (hashObject content) = true /\
  object_path (hashObject content) = objectPath +:+ "/" +:+ hashObject content.
Proof.
  split; [apply hashObject_length |]. split.
  - unfold hashObject, Sha1.sha1_hex. apply hex_lower.
  - apply object_path_nonempty, hashObject_nonempty.
Qed.

Lemma object_path_inj (a b : string) :
  a <> "" -> b <> "" -> object_path a = object_path b -> a = b.
Proof.
  intros Ha Hb H. rewrite !object_path_nonempty in H by assumption.
  apply String.app_inj in H. now apply String.app_inj in H.
Qed.

Lemma entries_app (es : list IndexEntry) (e : IndexEntry) :
  map entry_json es ++ [entry_json e] = map entry_json (es ++ [e]).
Proof. now rewrite map_app. Qed.

(** X20. [add] followed by [commit], from an index of well-formed
    entries: both succeed, the stored commit lists the entries staged
    before followed by the new file with the digest of its content, its
    parent is the previous HEAD, the index is empty again, and the blob is
    in the store (unless the commit itself has the digest of the blob). *)
Theorem add_then_commit
  (fileToBeAdded content text now message : string) (es : list IndexEntry) (w : world) :
  disk w !! fileToBeAdded = Some content ->
  disk w !! indexPath = Some text ->
  parse text = Some (JArr (map entry_json es)) ->
  let e := {| path := fileToBeAdded; hash := hashObject content |} in
  let c := {| timeStamp := now; message := message;
              files := es ++ [e]; parent := disk w !! headPath |} in
  let w1 := snd (add fileToBeAdded w) in
  let w2 := snd (commit now message w1) in
  fst (add fileToBeAdded w) = Ok tt /\
  fst (commit now message w1) = Ok tt /\
  stored_commit (disk w2) = Some (commit_json c) /\
  disk w2 !! indexPath = Some "[]" /\
  (commit_hash c <> hashObject content ->
   disk w2 !! object_path (hashObject content) = Some content).
Proof.
  intros Hfile Hidx Hparse e c w1 w2.
  pose proof (add_stages fileToBeAdded content text _ w Hfile Hidx Hparse) as Hadd.
  cbv zeta in Hadd.
  change (JObj [("path", JStr fileToBeAdded); ("hash", JStr (hashObject content))])
    with (entry_json e) in Hadd.
  rewrite entries_app in Hadd.
  assert (disk w1 !! indexPath =
          Some (JSON_stringify (JArr (map entry_json (es ++ [e]))))) as Hidx1.
  { unfold w1. rewrite Hadd. cbn [snd disk]. apply lookup_insert_eq. }
  assert (disk w1 !! headPath = disk w !! headPath) as Hhead1.
  { unfold w1. rewrite Hadd. cbn [snd disk].
    rewrite lookup_insert_ne by (apply not_eq_sym, head_not_index).
    now rewrite lookup_insert_ne by apply object_path_not_head. }
  assert (disk w1 !! object_path (hashObject content) = Some content) as Hblob1.
  { unfold w1. rewrite Hadd. cbn [snd disk].
    rewrite lookup_insert_ne by (apply not_eq_sym, object_path_not_index).
    apply lookup_insert_eq. }
  pose proof (commit_typed now message _ (es ++ [e]) w1 Hidx1 (parse_entries _))
    as (Hok & _ & _ & Hindex2 & Hframe).
  pose proof (commit_typed_stored now message _ (es ++ [e]) w1 Hidx1 (parse_entries _))
    as Hstored.
  rewrite Hhead1 in Hstored, Hframe. fold c in Hstored, Hframe. fold w2 in Hstored, Hframe, Hindex2.
  split; [unfold w1 in *; now rewrite Hadd |].
  split; [exact Hok |]. split; [exact Hstored |]. split; [exact Hindex2 |].
  intros Hne. rewrite Hframe; [exact Hblob1 | | |].
  - apply object_path_not_head.
  - apply object_path_not_index.
  - intros E. apply object_path_inj in E; [congruence | apply hashObject_nonempty ..].
Qed.

(** X21. [log] after a successful [commit] prints the record of the new
    commit first and then goes on from the HEAD the commit started
    with. *)
Theorem commit_then_log
  (now message text : string) (es : list IndexEntry) (w : world)
  (fuel : nat) (tr : list event) :
  disk w !! indexPath = Some text ->
  parse text = Some (JArr (map entry_json es)) ->
  let c := {| timeStamp := now; message := message;
              files := es; parent := disk w !! headPath |} in
  let d' := disk (snd (commit now message w)) in
  log (S fuel) (World d' tr) =
  log_loop fuel (Some (head_value (disk w))) (World d' (tr ++ log_record c)).
Proof.
  intros Hidx Hparse c d'.
  destruct (commit_typed now message text es w Hidx Hparse) as (_ & Hhead & Hobj & _).
  fold c in Hhead, Hobj. fold d' in Hhead, Hobj.
  unfold log, bind. rewrite getCurrentHead_run. cbn [disk].
  unfold head_value at 1. rewrite Hhead.
  rewrite (log_loop_step fuel (commit_hash c) (serialize c) c (World d' tr)
             (hashObject_nonempty _) Hobj (parse_serialize c)).
  cbn [disk trace]. now rewrite head_value_parent.
Qed.

(** X22. Adding the same unchanged file twice stores nothing new the
    second time: the object store is as after the first [add], and the
    index ends with the same entry twice. *)
Theorem add_twice
  (fileToBeAdded content text : string) (items : list json) (w : world) :
  disk w !! fileToBeAdded = Some content ->
  fileToBeAdded <> indexPath ->
  disk w !! indexPath = Some text ->
  parse text = Some (JArr items) ->
  plain (JArr items) = true ->
  let entry := JObj [("path", JStr fileToBeAdded); ("hash", JStr (hashObject content))] in
  let w2 := snd (add fileToBeAdded (snd (add fileToBeAdded w))) in
  fst (add fileToBeAdded (snd (add fileToBeAdded w))) = Ok tt /\
  disk w2 =
    <[indexPath := JSON_stringify (JArr (items ++ [entry; entry]))]>
      (<[object_path (hashObject content) := content]> (disk w)).
Proof.
  intros Hfile Hne Hidx Hparse Hplain entry w2.
  pose proof (add_stages fileToBeAdded content text items w Hfile Hidx Hparse) as Hadd.
  cbv zeta in Hadd. fold entry in Hadd.
  set (w1 := snd (add fileToBeAdded w)) in *.
  assert (disk w1 =
          <[indexPath := JSON_stringify (JArr (items ++ [entry]))]>
            (<[object_path (hashObject content) := content]> (disk w))) as Hd1
    by (unfold w1; now rewrite Hadd).
  assert (disk w1 !! fileToBeAdded = Some content) as Hfile1.
  { rewrite Hd1. rewrite lookup_insert_ne by congruence.
    destruct (decide (object_path (hashObject content) = fileToBeAdded)) as [<- | N].
    - apply lookup_insert_eq.
    - now rewrite lookup_insert_ne by exact N. }
  assert (disk w1 !! indexPath = Some (JSON_stringify (JArr (items ++ [entry])))) as Hidx1
    by (rewrite Hd1; apply lookup_insert_eq).
  assert (parse (JSON_stringify (JArr (items ++ [entry]))) = Some (JArr (items ++ [entry])))
    as Hparse1.
  { apply parse_stringify. simpl in *. now rewrite forallb_app, Hplain. }
  pose proof (add_stages fileToBeAdded content _ _ w1 Hfile1 Hidx1 Hparse1) as Hadd2.
  cbv zeta in Hadd2. fold entry in Hadd2.
  unfold w2. rewrite Hadd2. cbn [fst snd disk]. split; [reflexivity |].
  rewrite Hd1. rewrite <- app_assoc. simpl app.
  pose proof (object_path_not_index (hashObject content)) as Hoi.
  apply map_eq. intros k.
  destruct (decide (indexPath = k)) as [<- | N1].
  - now rewrite !lookup_insert_eq.
  - rewrite !(lookup_insert_ne _ indexPath k) by exact N1.
    destruct (decide (object_path (hashObject content) = k)) as [<- | N2].
    + now rewrite !lookup_insert_eq.
    + repeat (rewrite lookup_insert_ne by assumption). reflexivity.
Qed.

(** X23. A [commit] clears what it commits: a second [commit] right after
    a successful one records no files and has the first commit as its
    parent. *)
Theorem commit_twice
  (now1 message1 now2 message2 text : string) (es : list IndexEntry) (w : world) :
  disk w !! indexPath = Some text ->
  parse text = Some (JArr (map entry_json es)) ->
  let c1 := {| timeStamp := now1; message := message1;
               files := es; parent := disk w !! headPath |} in
  let c2 := {| timeStamp := now2; message := message2;
               files := []; parent := Some (commit_hash c1) |} in
  let w1 := snd (commit now1 message1 w) in
  let w2 := snd (commit now2 message2 w1) in
  fst (commit now2 message2 w1) = Ok tt /\
  stored_commit (disk w2) = Some (commit_json c2).
Proof.
  intros Hidx Hparse c1 c2 w1 w2.
  destruct (commit_typed now1 message1 text es w Hidx Hparse) as (_ & Hhead & _ & Hindex & _).
  fold c1 in Hhead. fold w1 in Hhead, Hindex.
  pose proof (commit_typed now2 message2 "[]" [] w1 Hindex eq_refl) as (Hok & _).
  pose proof (commit_typed_stored now2 message2 "[]" [] w1 Hindex eq_refl) as Hst.
  rewrite Hhead in Hst. split; [exact Hok | exact Hst].
Qed.

End ComposeFacts.

(** ** The further properties on recorded sessions *)

Section LawsOnSessions.
Import Session.

Lemma a_txt_outside : outside_repository "a.txt".
Proof.
  split; [discriminate |]. split; [discriminate |].
  intros h. unfold object_path, join. destruct (String.eqb h ""); discriminate.
Qed.

Lemma bare_content_addressed : content_addressed (disk bare).
Proof.
  intros h text H. unfold bare, save, empty in H. cbn [disk] in H.
  rewrite lookup_insert_ne in H by apply a_txt_outside.
  rewrite lookup_empty in H. discriminate.
Qed.

Lemma walk_orphan :
  walk (disk orphan) (Some (head_value (disk orphan))) [c2] (Some (JStr (commit_hash c1))).
Proof.
  assert (head_value (disk orphan) = JStr (commit_hash c2)) as ->
    by (vm_compute; reflexivity).
  apply (walk_link _ (commit_hash c2) (serialize c2) c2 [] _).
  - vm_compute; discriminate.
  - vm_compute; reflexivity.
  - apply parse_serialize.
  - change (Some (parent_json (parent c2))) with (Some (JStr (commit_hash c1))).
    apply walk_here.
Qed.

Lemma walk_tampered :
  walk (disk tampered) (Some (head_value (disk tampered))) [looping]
    (Some (head_value (disk tampered))).
Proof.
  assert (head_value (disk tampered) = JStr "loop") as -> by (vm_compute; reflexivity).
  apply (walk_link _ "loop" (serialize looping) looping [] _).
  - discriminate.
  - vm_compute; reflexivity.
  - apply parse_serialize.
  - apply walk_here.
Qed.

Lemma working_tree_untouched_witness :
  outside_repository "a.txt" /\
  disk (snd (commit t2 "second" repo1)) !! "a.txt" = disk repo1 !! "a.txt".
Proof.
  split; [exact a_txt_outside |].
  exact (proj2 (proj2 (working_tree_untouched "a.txt" "a.txt" t2 "second" repo1
                         a_txt_outside))).
Defined.

Lemma content_addressing_kept_witness :
  content_addressed (disk bare) /\
  content_addressed (disk (snd (add "a.txt" bare))).
Proof.
  split; [exact bare_content_addressed |].
  exact (proj1 (proj2 (content_addressing_kept "a.txt" t1 "first" bare
                         bare_content_addressed))).
Defined.

Lemma init_existing_head_witness :
  is_Some (disk repo1 !! headPath) /\
  init repo1 =
    (Ok tt, World (disk repo1)
              (trace repo1 ++ [console_log [Some (JStr "Already exists .rit directory")]])).
Proof.
  assert (is_Some (disk repo1 !! headPath)) as H
    by (exists (commit_hash c1); vm_compute; reflexivity).
  assert (mkdir_recursive objectPath repo1 = (Ok tt, repo1)) as Hmk
    by (rewrite mkdir_recursive_objectPath; vm_compute; reflexivity).
  split; [exact H |].
  rewrite (init_existing_head repo1 H). unfold bind. now rewrite Hmk.
Defined.

Lemma add_missing_file_witness :
  disk repo1 !! "nope.txt" = None /\
  add "nope.txt" repo1 = (Throw (ENOENT "nope.txt"), repo1).
Proof.
  assert (disk repo1 !! "nope.txt" = None) as H by (vm_compute; reflexivity).
  split; [exact H | exact (add_missing_file "nope.txt" repo1 H)].
Defined.




Lemma log_without_head_witness :
  disk (snd (init empty)) !! headPath = Some "" /\
  log 0 (snd (init empty)) = (Ok tt, snd (init empty)).
Proof.
  assert (disk (snd (init empty)) !! headPath = Some "") as H by reflexivity.
  split; [exact H | exact (log_without_head 0 (snd (init empty)) (or_introl H))].
Defined.

Lemma log_dangling_link_witness :
  walk (disk orphan) (Some (head_value (disk orphan))) [c2] (Some (JStr (commit_hash c1))) /\
  commit_hash c1 <> "" /\
  disk orphan !! object_path (commit_hash c1) = None /\
  log (length [c2] + 1) (World (disk orphan) []) =
    (Throw (ENOENT (object_path (commit_hash c1))),
     World (disk orphan) ([] ++ concat (map log_record [c2]))).
Proof.
  assert (commit_hash c1 <> "") as Hh by (vm_compute; discriminate).
  assert (disk orphan !! object_path (commit_hash c1) = None) as Hobj
    by (vm_compute; reflexivity).
  split; [exact walk_orphan |]. split; [exact Hh |]. split; [exact Hobj |].
  exact (log_dangling_link (disk orphan) [c2] (commit_hash c1) 0 [] walk_orphan Hh Hobj).
Defined.

Lemma log_cycle_diverges_witness :
  walk (disk tampered) (Some (head_value (disk tampered))) [looping]
    (Some (head_value (disk tampered))) /\
  [looping] <> [] /\
  fst (log 1000 (World (disk tampered) [])) = OutOfFuel.
Proof.
  assert ([looping] <> []) as H by discriminate.
  split; [exact walk_tampered |]. split; [exact H |].
  exact (log_cycle_diverges (disk tampered) [looping] 1000 [] walk_tampered H).
Defined.

Lemma showCommitDiff_not_a_commit_witness :
  disk nullish !! object_path (hashObject "null") = Some "null" /\
  parse "null" = Some JNull /\
  showCommitDiff (hashObject "null") nullish =
    (Ok tt, World (disk nullish)
              (trace nullish ++ [console_log [Some (JStr "commit data not found")]])).
Proof.
  assert (disk nullish !! object_path (hashObject "null") = Some "null") as H
    by (vm_compute; reflexivity).
  split; [exact H |]. split; [reflexivity |].
  exact (proj2 (showCommitDiff_not_a_commit (hashObject "null") "null" nullish H)
           JNull eq_refl eq_refl).
Defined.

Lemma showCommitDiff_without_files_witness :
  disk jsonish !! object_path (hashObject "{}") = Some "{}" /\
  parse "{}" = Some (JObj []) /\
  showCommitDiff (hashObject "{}") jsonish =
    (Throw TypeError, World (disk jsonish) (trace jsonish ++ [console_log [Some (JObj [])]])).
Proof.
  assert (disk jsonish !! object_path (hashObject "{}") = Some "{}") as H
    by (vm_compute; reflexivity).
  assert (forall fields, JObj [] = JObj fields ->
                         iterate (assoc "files" fields) = Throw TypeError) as Hf
    by (intros fields E; injection E as <-; reflexivity).
  split; [exact H |]. split; [reflexivity |].
  exact (showCommitDiff_without_files (hashObject "{}") "{}" (JObj []) jsonish
           H eq_refl eq_refl Hf).
Defined.

Lemma show_file_matched_path_witness :
  let e := {| path := "a.txt"; hash := hashObject ("hello" +:+ nl +:+ "world" +:+ nl) |} in
  let e' := {| path := "a.txt"; hash := hashObject ("hello" +:+ nl) |} in
  disk repo2 !! object_path (commit_hash c1) = Some (serialize c1) /\
  disk repo2 !! object_path (hash e) = Some ("hello" +:+ nl +:+ "world" +:+ nl) /\
  disk repo2 !! object_path (hash e') = Some ("hello" +:+ nl) /\
  show_file (commit_json c2) (entry_json e) (World (disk repo2) []) =
    (Ok tt,
     World (disk repo2)
       ([] ++ file_lines (disk repo2) e ++
        [console_log [Some (JStr (nl +:+ "Diff:"))]] ++
        map rendered (diffLines ("hello" +:+ nl) ("hello" +:+ nl +:+ "world" +:+ nl)) ++
        [console_log []])).
Proof.
  intros e e'.
  assert (commit_hash c1 <> "") as Hh by (vm_compute; discriminate).
  assert (disk repo2 !! object_path (commit_hash c1) = Some (serialize c1)) as Hobj
    by (vm_compute; reflexivity).
  assert (disk repo2 !! object_path (hash e) = Some ("hello" +:+ nl +:+ "world" +:+ nl))
    as Hblob by (vm_compute; reflexivity).
  assert (disk repo2 !! object_path (hash e') = Some ("hello" +:+ nl)) as Hold
    by (vm_compute; reflexivity).
  assert (forall e0, In e0 [] -> path e0 <> path e) as Hbefore by (intros e0 []).
  assert ("hello" +:+ nl <> "undefined") as Hne by (vm_compute; discriminate).
  split; [exact Hobj |]. split; [exact Hblob |]. split; [exact Hold |].
  exact (show_file_matched_path c2 c1 e e' [] [] (commit_hash c1) (serialize c1)
           ("hello" +:+ nl +:+ "world" +:+ nl) ("hello" +:+ nl) (disk repo2) []
           eq_refl Hh Hobj (parse_serialize c1) eq_refl Hbefore eq_refl Hblob Hold Hne).
Defined.

Lemma show_file_parent_text_undefined_witness :
  let e := {| path := "u.txt"; hash := hashObject ("defined" +:+ nl) |} in
  let e' := {| path := "u.txt"; hash := hashObject "undefined" |} in
  disk undef2 !! object_path (commit_hash cu1) = Some (serialize cu1) /\
  disk undef2 !! object_path (hash e) = Some ("defined" +:+ nl) /\
  disk undef2 !! object_path (hash e') = Some "undefined" /\
  show_file (commit_json cu2) (entry_json e) (World (disk undef2) []) =
    (Ok tt,
     World (disk undef2)
       ([] ++ file_lines (disk undef2) e ++ [console_log [Some (JStr "First Commit")]])).
Proof.
  intros e e'.
  assert (commit_hash cu1 <> "") as Hh by (vm_compute; discriminate).
  assert (disk undef2 !! object_path (commit_hash cu1) = Some (serialize cu1)) as Hobj
    by (vm_compute; reflexivity).
  assert (disk undef2 !! object_path (hash e) = Some ("defined" +:+ nl)) as Hblob
    by (vm_compute; reflexivity).
  assert (disk undef2 !! object_path (hash e') = Some "undefined") as Hold
    by (vm_compute; reflexivity).
  assert (forall e0, In e0 [] -> path e0 <> path e) as Hbefore by (intros e0 []).
  split; [exact Hobj |]. split; [exact Hblob |]. split; [exact Hold |].
  exact (show_file_parent_text_undefined cu2 cu1 e e' [] [] (commit_hash cu1)
           (serialize cu1) ("defined" +:+ nl) (disk undef2) []
           eq_refl Hh Hobj (parse_serialize cu1) eq_refl Hbefore eq_refl Hblob Hold).
Defined.

Lemma show_file_dangling_parent_witness :
  let e := {| path := "a.txt"; hash := hashObject ("hello" +:+ nl +:+ "world" +:+ nl) |} in
  disk orphan !! object_path (commit_hash c1) = None /\
  disk orphan !! object_path (hash e) = Some ("hello" +:+ nl +:+ "world" +:+ nl) /\
  show_file (commit_json c2) (entry_json e) (World (disk orphan) []) =
    (Throw SyntaxError,
     World (disk orphan)
       ([] ++ file_lines (disk orphan) e ++
        [console_log
           [Some (JStr ("Failed to read commit data " +:+
                        error_text (ENOENT (object_path (commit_hash c1)))))]])).
Proof.
  intros e.
  assert (commit_hash c1 <> "") as Hh by (vm_compute; discriminate).
  assert (disk orphan !! object_path (commit_hash c1) = None) as Hobj
    by (vm_compute; reflexivity).
  assert (disk orphan !! object_path (hash e) = Some ("hello" +:+ nl +:+ "world" +:+ nl))
    as Hblob by (vm_compute; reflexivity).
  split; [exact Hobj |]. split; [exact Hblob |].
  exact (show_file_dangling_parent c2 e (commit_hash c1)
           ("hello" +:+ nl +:+ "world" +:+ nl) (disk orphan) [] eq_refl Hh Hobj Hblob).
Defined.

Lemma show_file_missing_blob_witness :
  let e := {| path := "a.txt"; hash := hashObject ("hello" +:+ nl) |} in
  disk fresh !! object_path (hash e) = None /\
  show_file (commit_json c1) (entry_json e) (World (disk fresh) []) =
    (Throw (ENOENT (object_path (hash e))),
     World (disk fresh) ([] ++ [console_log [Some (JStr ("File : " +:+ path e))]])).
Proof.
  intros e.
  assert (disk fresh !! object_path (hash e) = None) as H by (vm_compute; reflexivity).
  split; [exact H |].
  exact (show_file_missing_blob (commit_json c1) e (disk fresh) [] H).
Defined.

Lemma add_then_commit_witness :
  disk fresh !! "a.txt" = Some ("hello" +:+ nl) /\
  disk fresh !! indexPath = Some "[]" /\
  fst (add "a.txt" fresh) = Ok tt /\
  fst (commit t1 "first" (snd (add "a.txt" fresh))) = Ok tt /\
  disk (snd (commit t1 "first" (snd (add "a.txt" fresh)))) !! indexPath = Some "[]".
Proof.
  assert (disk fresh !! "a.txt" = Some ("hello" +:+ nl)) as H1 by reflexivity.
  assert (disk fresh !! indexPath = Some "[]") as H2 by reflexivity.
  destruct (add_then_commit "a.txt" ("hello" +:+ nl) "[]" t1 "first" [] fresh
              H1 H2 eq_refl) as (Ha & Hc & _ & Hi & _).
  split; [exact H1 |]. split; [exact H2 |]. split; [exact Ha |].
  split; [exact Hc | exact Hi].
Defined.

Lemma commit_then_log_witness :
  let e := {| path := "a.txt"; hash := hashObject ("hello" +:+ nl) |} in
  let c := {| timeStamp := t1; message := "first"; files := [e];
              parent := disk staged !! headPath |} in
  let d' := disk (snd (commit t1 "first" staged)) in
  disk staged !! indexPath = Some (JSON_stringify (JArr (map entry_json [e]))) /\
  log 1 (World d' []) =
    log_loop 0 (Some (head_value (disk staged))) (World d' ([] ++ log_record c)).
Proof.
  intros e c d'.
  assert (disk staged !! indexPath = Some (JSON_stringify (JArr (map entry_json [e]))))
    as H1 by (vm_compute; reflexivity).
  split; [exact H1 |].
  exact (commit_then_log t1 "first" _ [e] staged 0 [] H1 (parse_entries [e])).
Defined.

Lemma add_twice_witness :
  let entry := JObj [("path", JStr "a.txt"); ("hash", JStr (hashObject ("hello" +:+ nl)))] in
  disk fresh !! "a.txt" = Some ("hello" +:+ nl) /\
  disk fresh !! indexPath = Some "[]" /\
  fst (add "a.txt" (snd (add "a.txt" fresh))) = Ok tt /\
  disk (snd (add "a.txt" (snd (add "a.txt" fresh)))) =
    <[indexPath := JSON_stringify (JArr ([] ++ [entry; entry]))]>
      (<[object_path (hashObject ("hello" +:+ nl)) := "hello" +:+ nl]> (disk fresh)).
Proof.
  intros entry.
  assert (disk fresh !! "a.txt" = Some ("hello" +:+ nl)) as H1 by reflexivity.
  assert (disk fresh !! indexPath = Some "[]") as H2 by reflexivity.
  assert ("a.txt" <> indexPath) as H3 by discriminate.
  split; [exact H1 |]. split; [exact H2 |].
  exact (add_twice "a.txt" ("hello" +:+ nl) "[]" [] fresh H1 H3 H2 eq_refl eq_refl).
Defined.

Lemma commit_twice_witness :
  let e := {| path := "a.txt"; hash := hashObject ("hello" +:+ nl) |} in
  let k1 := {| timeStamp := t1; message := "first"; files := [e];
               parent := disk staged !! headPath |} in
  let k2 := {| timeStamp := t2; message := "again"; files := [];
               parent := Some (commit_hash k1) |} in
  disk staged !! indexPath = Some (JSON_stringify (JArr (map entry_json [e]))) /\
  fst (commit t2 "again" (snd (commit t1 "first" staged))) = Ok tt /\
  stored_commit (disk (snd (commit t2 "again" (snd (commit t1 "first" staged))))) =
    Some (commit_json k2).
Proof.
  intros e k1 k2.
  assert (disk staged !! indexPath = Some (JSON_stringify (JArr (map entry_json [e]))))
    as H1 by (vm_compute; reflexivity).
  split; [exact H1 |].
  exact (commit_twice t1 "first" t2 "again" _ [e] staged H1 (parse_entries [e])).
Defined.

End LawsOnSessions.
